(** * ActionOrderManagerV2: the turn-order engine of the poker hand logger

    A shallow embedding of [src/js/action-order-manager-v2.js] and the
    properties of its order tables, turn cursor and betting-round test.

    Conventions of the embedding.
    - Seat numbers are integers ([Z]); player names are strings.
    - [seatMap] (a JS [Map] keyed by seat) is a [gmap Z Player]; its keys are
      sorted before any use, so the insertion order of the [Map] is not
      observable.
    - [playerStatus] and [playerActions] are plain JS objects used as
      dictionaries.  Their own properties are a [gmap string _]; behind them
      stands [Object.prototype].  A write [obj[k] = v] goes through [jsSet]:
      for the key ['__proto__'] it reaches the setter of [Object.prototype],
      which ignores a value that is not an object, unless the object has an
      own property of that name.  A read that finds no own property finds
      the member of [Object.prototype] of that name, if there is one
      ([objectPrototypeKeys]): a function or an object, which is neither
      [undefined] nor the string ['active'].
    - The street and status strings are the enumerations the code documents
      (['preflop'|'flop'|'turn'|'river'], ['active'|'folded'|'allin']).
    - [undefined] is [None]; a property read on [undefined] raises
      [TypeError], which is an explicit [Throw] of the [outcome] type. *)

From stdpp Require Import gmap strings list sorting fin_maps.

#[local] Set Warnings "-clear-no-such-hyp".


(** ** Exceptions *)

Inductive exn := TypeError.

Inductive outcome (A : Type) : Type :=
  | Ret (a : A)
  | Throw (e : exn).
Arguments Ret {A} a.
Arguments Throw {A} e.

Global Instance outcome_ret : MRet outcome := λ A a, Ret a.
Global Instance outcome_bind : MBind outcome := λ A B f m,
  match m with
  | Ret a => f a
  | Throw e => Throw e
  end.

(** [for (x of xs) { s = body(s, x) }] where the body may throw. *)
Fixpoint for_each {S A : Type} (body : S → A → outcome S) (xs : list A) (s : S)
  : outcome S :=
  match xs with
  | [] => Ret s
  | x :: xs' =>
      match body s x with
      | Ret s' => for_each body xs' s'
      | Throw e => Throw e
      end
  end.

(** A reference returned by a query: an object, [null] or [undefined]. *)
Inductive JsRef (A : Type) : Type :=
  | JsObj (a : A)
  | JsNull
  | JsUndefined.
Arguments JsObj {A} a.
Arguments JsNull {A}.
Arguments JsUndefined {A}.

(** ** Plain objects *)

(** The property names of [Object.prototype] (ECMAScript, with the
    additions for web browsers). *)
Definition objectPrototypeKeys : list string :=
  [ "constructor"; "hasOwnProperty"; "isPrototypeOf"; "propertyIsEnumerable";
    "toLocaleString"; "toString"; "valueOf"; "__proto__";
    "__defineGetter__"; "__defineSetter__";
    "__lookupGetter__"; "__lookupSetter__" ]%string.

(** [obj[k] = v] on a plain object whose own properties are [own], for a
    value [v] that is not an object.  An own property is overwritten, a new
    one is created, except that ['__proto__'], when it is not an own
    property, is the accessor of [Object.prototype], whose setter ignores
    the value. *)
Definition jsSet {V : Type} (own : gmap string V) (k : string) (v : V)
  : gmap string V :=
  if decide (k = "__proto__"%string ∧ own !! k = None) then own
  else <[k := v]> own.

(** ** Data *)

Record Player := { name : string; seat : Z }.

(** Position labels.  [MP k] is the string ["MP" ++ k]; the literals ['MP1']
    and ['MP2'] of the source are [MP 1] and [MP 2]. *)
Inductive PositionLabel :=
  | SB | BB | BTN | UTG | UTG1 (* 'UTG+1' *) | CO
  | MP (k : Z).
Definition MP1 : PositionLabel := MP 1.
Definition MP2 : PositionLabel := MP 2.

Inductive Street := preflop | flop | turn | river.
Inductive Status := active | folded | allin.

Global Instance PositionLabel_eq_dec : EqDecision PositionLabel.
Proof. solve_decision. Defined.
Global Instance Street_eq_dec : EqDecision Street.
Proof. solve_decision. Defined.
Global Instance Status_eq_dec : EqDecision Status.
Proof. solve_decision. Defined.
Global Instance Player_eq_dec : EqDecision Player.
Proof. solve_decision. Defined.

(** [{player, seat, position, priority}] *)
Record ActionSlot := {
  slot_player : string;
  slot_seat : Z;
  slot_position : PositionLabel;
  slot_priority : nat
}.

Global Instance ActionSlot_eq_dec : EqDecision ActionSlot.
Proof. solve_decision. Defined.

(** [{player, seat, position, index}], the entries of the local [positions]
    array of [createPreflopOrder]. *)
Record PositionEntry := {
  pe_player : option Player;
  pe_seat : option Z;
  pe_position : PositionLabel;
  pe_index : nat
}.

(** [this.absoluteOrder] *)
Record AbsoluteOrder := {
  ao_preflop : list ActionSlot;
  ao_postflop : list ActionSlot
}.

(** [this.currentActionIndex] *)
Record ActionIndex := {
  ai_preflop : nat;
  ai_flop : nat;
  ai_turn : nat;
  ai_river : nat
}.

Record Manager := {
  handNumber : option string;
  buttonPosition : Z;
  absoluteOrder : AbsoluteOrder;
  currentStreet : Street;
  currentActionIndex : ActionIndex;
  playerStatus : gmap string Status
}.

(** An element of the array returned by [getActionOrder]:
    [{...p, status, canAct}].  [oe_status] is the registry's own entry for
    the slot's name, [None] when it has none; what a read would then find in
    [Object.prototype] is no status string, and [canAct] is false either
    way. *)
Record OrderEntry := {
  oe_slot : ActionSlot;
  oe_status : option Status;
  oe_canAct : bool
}.

(** An element of the [actions] array of [isBettingRoundComplete]: the
    player's name and the action are strings, and either field may be
    missing. *)
Record ActionRecord := {
  ar_player : option string;
  ar_action : option string
}.

Global Instance ActionRecord_eq_dec : EqDecision ActionRecord.
Proof. solve_decision. Defined.

(** ** constructor *)

Definition zeroIndex : ActionIndex :=
  {| ai_preflop := 0; ai_flop := 0; ai_turn := 0; ai_river := 0 |}.

Definition emptyOrder : AbsoluteOrder :=
  {| ao_preflop := []; ao_postflop := [] |}.

Definition newManager : Manager :=
  {| handNumber := None;
     buttonPosition := 1;
     absoluteOrder := emptyOrder;
     currentStreet := preflop;
     currentActionIndex := zeroIndex;
     playerStatus := ∅ |}.

(** ** Order construction *)

(** [players.forEach(p => seatMap.set(p.seat, p))] *)
Definition buildSeatMap (players : list Player) : gmap Z Player :=
  foldl (λ seatMap p, <[seat p := p]> seatMap) ∅ players.

(** [Array.from(seatMap.keys()).sort((a, b) => a - b)] *)
Definition sortedKeys (seatMap : gmap Z Player) : list Z :=
  merge_sort Z.le (map_to_list seatMap).*1.

(** [Array.prototype.indexOf]; [None] is the result [-1]. *)
Fixpoint indexOf (l : list Z) (x : Z) : option nat :=
  match l with
  | [] => None
  | y :: l' => if decide (y = x) then Some 0 else S <$> indexOf l' x
  end.

(** The [if]/[else if] chain of [createPreflopOrder] (lines 103-112). *)
Definition preflopPosition (totalPlayers i : nat) : PositionLabel :=
  if decide (i = 0) then SB
  else if decide (i = 1) then BB
  else if decide (Z.of_nat i = Z.of_nat totalPlayers - 1)%Z then BTN
  else if decide (i = 2) then UTG
  else if decide (i = 3) then UTG1
  else if decide (i = 4) then MP1
  else if decide (i = 5) then MP2
  else if decide (Z.of_nat i = Z.of_nat totalPlayers - 2)%Z then CO
  else MP (Z.of_nat i - 2).

(** The [if]/[else if] chain of [createPostflopOrder] (lines 173-182). *)
Definition postflopPosition (totalPlayers i : nat) : PositionLabel :=
  if decide (i = 0) then SB
  else if decide (i = 1) then BB
  else if decide (Z.of_nat i = Z.of_nat totalPlayers - 1)%Z then BTN
  else if decide (i = 2) then UTG
  else if decide (i = 3) then UTG1
  else if decide (i = 4) then MP1
  else if decide (i = 5) then MP2
  else if decide (Z.of_nat i = Z.of_nat totalPlayers - 2)%Z then CO
  else MP (Z.of_nat i - 2).

(** The first loop of [createPreflopOrder]: one entry per relative index. *)
Definition assignPositions (seatMap : gmap Z Player) (occupiedSeats : list Z)
    (btnIndex totalPlayers : nat) : list PositionEntry :=
  foldl (λ positions i,
    let seatIndex := (btnIndex + i + 1) `mod` totalPlayers in
    let seat := occupiedSeats !! seatIndex in
    let player := seat ≫= (seatMap !!.) in
    let position := preflopPosition totalPlayers i in
    positions ++ [ {| pe_player := player; pe_seat := seat;
                      pe_position := position; pe_index := i |} ])
    [] (seq 0 totalPlayers).

(** [order.push({player: e.player.name, seat: e.seat, position,
    priority: order.length})] for [e = positions[i]].  Reading [.player] of an
    undefined entry, or [.name] of an undefined player, throws.  An entry
    with a player always has a seat (the player was found by that seat). *)
Definition pushEntry (order : list ActionSlot) (e : option PositionEntry)
    (position : PositionEntry → PositionLabel) : outcome (list ActionSlot) :=
  match e with
  | None => Throw TypeError
  | Some e =>
      match pe_player e, pe_seat e with
      | Some p, Some s =>
          Ret (order ++ [ {| slot_player := name p; slot_seat := s;
                             slot_position := position e;
                             slot_priority := length order |} ])
      | _, _ => Throw TypeError
      end
  end.

Definition createPreflopOrder (players : list Player) (buttonPosition : Z)
  : outcome (list ActionSlot) :=
  let order := [] in
  let seatMap := buildSeatMap players in
  let occupiedSeats := sortedKeys seatMap in
  let totalPlayers := length occupiedSeats in
  match indexOf occupiedSeats buttonPosition with
  | None => Ret order
  | Some btnIndex =>
      let positions :=
        assignPositions seatMap occupiedSeats btnIndex totalPlayers in
      order ← for_each (λ order i, pushEntry order (positions !! i) pe_position)
                (seq 2 (totalPlayers - 2)) order;
      order ← pushEntry order (positions !! 0) (λ _, SB);
      order ← pushEntry order (positions !! 1) (λ _, BB);
      Ret order
  end.

Definition createPostflopOrder (players : list Player) (buttonPosition : Z)
  : outcome (list ActionSlot) :=
  let order := [] in
  let seatMap := buildSeatMap players in
  let occupiedSeats := sortedKeys seatMap in
  let totalPlayers := length occupiedSeats in
  match indexOf occupiedSeats buttonPosition with
  | None => Ret order
  | Some btnIndex =>
      for_each (λ order i,
        let seatIndex := (btnIndex + i + 1) `mod` totalPlayers in
        let seat := occupiedSeats !! seatIndex in
        let player := seat ≫= (seatMap !!.) in
        let position := postflopPosition totalPlayers i in
        match player, seat with
        | Some p, Some s =>
            Ret (order ++ [ {| slot_player := name p; slot_seat := s;
                               slot_position := position;
                               slot_priority := i |} ])
        | _, _ => Throw TypeError
        end)
        (seq 0 totalPlayers) order
  end.

(** ** Hand life cycle *)

(** The state a method leaves behind, and whether it returned or threw. *)
Inductive completion :=
  | Normal (st : Manager)
  | Abrupt (e : exn) (st : Manager).

(** [this.playerStatus = {};
     playersInHand.forEach(p => { this.playerStatus[p.name] = 'active' })] *)
Definition registerActive (playersInHand : list Player) : gmap string Status :=
  foldl (λ playerStatus p, jsSet playerStatus (name p) active) ∅ playersInHand.

Definition initializeHand (this : Manager) (playersInHand : list Player)
    (button : Z) (hand : string) : completion :=
  let this := {| handNumber := Some hand;
                 buttonPosition := button;
                 absoluteOrder := absoluteOrder this;
                 currentStreet := currentStreet this;
                 currentActionIndex := zeroIndex;
                 playerStatus := registerActive playersInHand |} in
  match createPreflopOrder playersInHand button with
  | Throw e => Abrupt e this
  | Ret pre =>
      match createPostflopOrder playersInHand button with
      | Throw e => Abrupt e this
      | Ret post =>
          Normal {| handNumber := handNumber this;
                    buttonPosition := buttonPosition this;
                    absoluteOrder := {| ao_preflop := pre; ao_postflop := post |};
                    currentStreet := currentStreet this;
                    currentActionIndex := currentActionIndex this;
                    playerStatus := playerStatus this |}
      end
  end.

Definition endHand (this : Manager) : Manager :=
  {| handNumber := None;
     buttonPosition := buttonPosition this;
     absoluteOrder := emptyOrder;
     currentStreet := preflop;
     currentActionIndex := zeroIndex;
     playerStatus := ∅ |}.

(** ** Turn cursor *)

(** [street === 'preflop' ? this.absoluteOrder.preflop
                          : this.absoluteOrder.postflop] *)
Definition orderTable (this : Manager) (street : Street) : list ActionSlot :=
  match street with
  | preflop => ao_preflop (absoluteOrder this)
  | _ => ao_postflop (absoluteOrder this)
  end.

(** [this.currentActionIndex[street]] *)
Definition getIndex (idx : ActionIndex) (street : Street) : nat :=
  match street with
  | preflop => ai_preflop idx
  | flop => ai_flop idx
  | turn => ai_turn idx
  | river => ai_river idx
  end.

(** [this.currentActionIndex[street] = n] *)
Definition setIndex (idx : ActionIndex) (street : Street) (n : nat) : ActionIndex :=
  match street with
  | preflop => {| ai_preflop := n; ai_flop := ai_flop idx;
                  ai_turn := ai_turn idx; ai_river := ai_river idx |}
  | flop => {| ai_preflop := ai_preflop idx; ai_flop := n;
               ai_turn := ai_turn idx; ai_river := ai_river idx |}
  | turn => {| ai_preflop := ai_preflop idx; ai_flop := ai_flop idx;
               ai_turn := n; ai_river := ai_river idx |}
  | river => {| ai_preflop := ai_preflop idx; ai_flop := ai_flop idx;
                ai_turn := ai_turn idx; ai_river := n |}
  end.

(** [this.playerStatus[p.player] === 'active']: only an own property can
    hold the string ['active']. *)
Definition isActive (this : Manager) (p : ActionSlot) : Prop :=
  playerStatus this !! slot_player p = Some active.

Global Instance isActive_dec this p : Decision (isActive this p).
Proof. unfold isActive. apply _. Defined.

Definition getCurrentPlayer (this : Manager) (street : Street) : JsRef ActionSlot :=
  let activePlayers := filter (isActive this) (orderTable this street) in
  if decide (length activePlayers = 0) then JsNull
  else
    let currentIndex :=
      getIndex (currentActionIndex this) street `mod` length activePlayers in
    match activePlayers !! currentIndex with
    | Some p => JsObj p
    | None => JsUndefined
    end.

Definition withIndex (this : Manager) (idx : ActionIndex) : Manager :=
  {| handNumber := handNumber this;
     buttonPosition := buttonPosition this;
     absoluteOrder := absoluteOrder this;
     currentStreet := currentStreet this;
     currentActionIndex := idx;
     playerStatus := playerStatus this |}.

Definition moveToNextPlayer (this : Manager) (street : Street)
  : Manager * JsRef ActionSlot :=
  let this := withIndex this
    (setIndex (currentActionIndex this) street
       (getIndex (currentActionIndex this) street + 1)) in
  (this, getCurrentPlayer this street).

Definition updatePlayerStatus (this : Manager) (playerName : string)
    (status : Status) : Manager * nat :=
  let this := {| handNumber := handNumber this;
                 buttonPosition := buttonPosition this;
                 absoluteOrder := absoluteOrder this;
                 currentStreet := currentStreet this;
                 currentActionIndex := currentActionIndex this;
                 playerStatus := jsSet (playerStatus this) playerName status |} in
  (this, length (filter (λ kv, kv.2 = active) (map_to_list (playerStatus this)))).

Definition advanceToStreet (this : Manager) (newStreet : Street)
  : Manager * JsRef ActionSlot :=
  let this := {| handNumber := handNumber this;
                 buttonPosition := buttonPosition this;
                 absoluteOrder := absoluteOrder this;
                 currentStreet := newStreet;
                 currentActionIndex :=
                   setIndex (currentActionIndex this) newStreet 0;
                 playerStatus := playerStatus this |} in
  (this, getCurrentPlayer this newStreet).

Definition getActionOrder (this : Manager) (street : Street) : list OrderEntry :=
  (λ p, {| oe_slot := p;
           oe_status := playerStatus this !! slot_player p;
           oe_canAct := bool_decide (playerStatus this !! slot_player p = Some active) |})
  <$> orderTable this street.

(** ** Betting round *)

(** [if (a.player)]: a missing player and the empty string are falsy. *)
Definition truthy (player : option string) : bool :=
  match player with
  | Some s => bool_decide (s ≠ EmptyString)
  | None => false
  end.

(** [actions.forEach(a => { if (a.player) playerActions[a.player] = a.action })].
    The stored value is [a.action], [undefined] ([None]) included. *)
Definition collectPlayerActions (actions : list ActionRecord)
  : gmap string (option string) :=
  foldl (λ playerActions a,
    match ar_player a with
    | Some p => if truthy (ar_player a) then jsSet playerActions p (ar_action a)
                else playerActions
    | None => playerActions
    end) ∅ actions.

(** [playerActions[p] !== undefined]: the own property if there is one (its
    value may be [undefined]), else the member of [Object.prototype] of that
    name, which is not [undefined]. *)
Definition hasAction (playerActions : gmap string (option string)) (p : string) : bool :=
  match playerActions !! p with
  | Some (Some _) => true
  | Some None => false
  | None => bool_decide (p ∈ objectPrototypeKeys)
  end.

Definition isBettingRoundComplete (this : Manager) (street : Street)
    (actions : list ActionRecord) : bool :=
  let activePlayers := filter (λ p, oe_canAct p = true) (getActionOrder this street) in
  if decide (length activePlayers ≤ 1) then true
  else
    let playerActions := collectPlayerActions actions in
    let allActed :=
      forallb (λ p, hasAction playerActions (slot_player (oe_slot p))) activePlayers in
    if negb allActed then false else true.

(** ** Reference notions used by the statements *)

(** The sorted list of distinct seats of a player list, as both builders
    compute it. *)
Definition occupiedSeats (players : list Player) : list Z :=
  sortedKeys (buildSeatMap players).

(** The player a seat ends up with: the last one in the list sitting there. *)
Definition seatHolder (players : list Player) (s : Z) : option Player :=
  last (filter (λ p, seat p = s) players).

(** The seat at relative index [i], counted clockwise from the seat after the
    button (whose index in the sorted seats is [btnIndex]). *)
Definition rotatedSeat (occ : list Z) (btnIndex i : nat) : option Z :=
  occ !! ((btnIndex + i + 1) `mod` length occ).

(** The slot of relative index [i]: its seat, the name of the seat's holder,
    and the given label and priority. *)
Definition resolvedSlot (players : list Player) (btnIndex i : nat)
    (position : PositionLabel) (priority : nat) : option ActionSlot :=
  s ← rotatedSeat (occupiedSeats players) btnIndex i;
  p ← seatHolder players s;
  Some {| slot_player := name p; slot_seat := s;
          slot_position := position; slot_priority := priority |}.

(** The precedence list of the specification, first match wins. *)
Definition precedence (N i : Z) : list (bool * PositionLabel) :=
  [ (bool_decide (i = 0), SB);
    (bool_decide (i = 1), BB);
    (bool_decide (i = N - 1), BTN);
    (bool_decide (i = 2), UTG);
    (bool_decide (i = 3), UTG1);
    (bool_decide (i = 4), MP1);
    (bool_decide (i = 5), MP2);
    (bool_decide (i = N - 2), CO) ]%Z.

Fixpoint firstMatch (rules : list (bool * PositionLabel))
    (otherwise : PositionLabel) : PositionLabel :=
  match rules with
  | [] => otherwise
  | (c, l) :: rules' => if c then l else firstMatch rules' otherwise
  end.

Definition specPosition (N i : nat) : PositionLabel :=
  firstMatch (precedence (Z.of_nat N) (Z.of_nat i)) (MP (Z.of_nat i - 2)).

(** The slots of a table that can act, as [getCurrentPlayer] filters them. *)
Definition activeSlots (this : Manager) (street : Street) : list ActionSlot :=
  filter (isActive this) (orderTable this street).

(** The player has at least one entry in [actions]. *)
Definition hasEntry (actions : list ActionRecord) (p : string) : Prop :=
  ∃ a, a ∈ actions ∧ ar_player a = Some p.


(** Two players of the list, at different places, share a seat number. *)
Definition hasDuplicateSeat (players : list Player) : Prop :=
  ∃ i j p q, i ≠ j ∧ players !! i = Some p ∧ players !! j = Some q ∧ seat p = seat q.

(** ** Sample hands *)

Definition mkPlayer (n : string) (s : Z) : Player := {| name := n; seat := s |}.

(** Four players at seats 1, 3, 5, 7. *)
Definition table4 : list Player :=
  [ mkPlayer "Ann" 1; mkPlayer "Bob" 3; mkPlayer "Cyd" 5; mkPlayer "Dee" 7 ].

(** Heads-up: two players at seats 1 and 2. *)
Definition table2 : list Player :=
  [ mkPlayer "Ann" 1; mkPlayer "Bob" 2 ].

(** Two players were entered for seat 1. *)
Definition tableDup : list Player :=
  [ mkPlayer "Ann" 1; mkPlayer "Bob" 1; mkPlayer "Cyd" 2 ].

(** Seat 1 is held by a player called like a member of [Object.prototype]. *)
Definition tableProto : list Player :=
  [ mkPlayer "constructor" 1; mkPlayer "Bob" 2 ].

(** Seat 1 is held by a player called ['__proto__']. *)
Definition tableUnderscore : list Player :=
  [ mkPlayer "__proto__" 1; mkPlayer "Bob" 2 ].


(** The manager after [initializeHand] on a fresh instance. *)
Definition started (players : list Player) (button : Z) : Manager :=
  match initializeHand newManager players button "h1" with
  | Normal this => this
  | Abrupt _ this => this
  end.

Definition act (player action : string) : ActionRecord :=
  {| ar_player := Some player; ar_action := Some action |}.

(** The four-handed table after the player under the gun has folded. *)
Definition utgFolded : Manager :=
  (updatePlayerStatus (started table4 7) "Cyd" folded).1.

(** The heads-up table after one of the two players has folded. *)
Definition headsUpFolded : Manager :=
  (updatePlayerStatus (started table2 1) "Bob" folded).1.

(** ** Sequences of calls *)

(** The manager after [n] successive calls of [moveToNextPlayer(street)]. *)
Fixpoint moves (n : nat) (this : Manager) (street : Street) : Manager :=
  match n with
  | 0 => this
  | S n => moves n (moveToNextPlayer this street).1 street
  end.

(** The values [n] successive calls of [moveToNextPlayer(street)] return. *)
Fixpoint nextPlayers (n : nat) (this : Manager) (street : Street)
  : list (JsRef ActionSlot) :=
  match n with
  | 0 => []
  | S n =>
      (moveToNextPlayer this street).2
        :: nextPlayers n (moveToNextPlayer this street).1 street
  end.

(** The four-handed table, the player under the gun folded, after four
    calls of [moveToNextPlayer('preflop')]. *)
Definition utgFoldedMoved : Manager := moves 4 utgFolded preflop.

(** The manager a call of [initializeHand] leaves, whether it returned or
    threw. *)
Definition completionState (c : completion) : Manager :=
  match c with
  | Normal this => this
  | Abrupt _ this => this
  end.

(** A table with its priorities rewritten to the positions of its slots. *)
Definition renumber (table : list ActionSlot) : list ActionSlot :=
  imap (λ k p, {| slot_player := slot_player p; slot_seat := slot_seat p;
                  slot_position := slot_position p; slot_priority := k |}) table.

(** The names the slots of a street's table carry. *)
Definition tableNames (this : Manager) (street : Street) : list string :=
  slot_player <$> orderTable this street.

(** The names with an entry in the status registry ([Object.keys]). *)
Definition registryNames (this : Manager) : list string :=
  (map_to_list (playerStatus this)).*1.

(** The street's table has one slot per registered name: its names are the
    registry's keys, each once. *)
Definition registryMatchesTable (this : Manager) (street : Street) : Prop :=
  tableNames this street ≡ₚ registryNames this.

(** ** The page: the global instance and the compatibility layer

    The script ends with
    [window.actionOrderManager = new ActionOrderManagerV2()] and
    [window.actionManager = {...window.actionOrderManager, ...}].  The spread
    copies the own properties of the instance as they are at load time, so
    the layer's [playerStatus] is a reference to the registry object the
    constructor created.  [updatePlayerStatus] writes into the object the
    manager's [playerStatus] refers to; [initializeHand] and [endHand] make
    the manager refer to a new object.  Registry objects therefore live in a
    store, addressed by number, and the manager and the layer each hold an
    address.  The [manager] field keeps the contents of the manager's
    registry object, so that the methods above apply to it unchanged. *)
Record Page := {
  store : gmap nat (gmap string Status);
  nextAddress : nat;
  manager : Manager;
  managerRegistry : nat;
  layerRegistry : nat
}.

(** The state after the script has run. *)
Definition loadPage : Page :=
  {| store := {[ 0 := ∅ ]};
     nextAddress := 1;
     manager := newManager;
     managerRegistry := 0;
     layerRegistry := 0 |}.

(** The manager's [playerStatus] becomes a new object with the contents the
    method gave it. *)
Definition withNewRegistry (pg : Page) (this : Manager) : Page :=
  {| store := <[nextAddress pg := playerStatus this]> (store pg);
     nextAddress := S (nextAddress pg);
     manager := this;
     managerRegistry := nextAddress pg;
     layerRegistry := layerRegistry pg |}.

(** The object the manager's [playerStatus] refers to is written in place. *)
Definition withSameRegistry (pg : Page) (this : Manager) : Page :=
  {| store := <[managerRegistry pg := playerStatus this]> (store pg);
     nextAddress := nextAddress pg;
     manager := this;
     managerRegistry := managerRegistry pg;
     layerRegistry := layerRegistry pg |}.

(** The manager changes, its registry object does not. *)
Definition withManager (pg : Page) (this : Manager) : Page :=
  {| store := store pg;
     nextAddress := nextAddress pg;
     manager := this;
     managerRegistry := managerRegistry pg;
     layerRegistry := layerRegistry pg |}.

(** A call on [window.actionOrderManager]. *)
Inductive Call :=
  | CallInitializeHand (players : list Player) (button : Z) (hand : string)
  | CallEndHand
  | CallUpdatePlayerStatus (playerName : string) (status : Status)
  | CallMoveToNextPlayer (street : Street)
  | CallAdvanceToStreet (street : Street).

Definition call (pg : Page) (c : Call) : Page :=
  match c with
  | CallInitializeHand players button hand =>
      withNewRegistry pg
        (completionState (initializeHand (manager pg) players button hand))
  | CallEndHand => withNewRegistry pg (endHand (manager pg))
  | CallUpdatePlayerStatus n status =>
      withSameRegistry pg (updatePlayerStatus (manager pg) n status).1
  | CallMoveToNextPlayer street =>
      withManager pg (moveToNextPlayer (manager pg) street).1
  | CallAdvanceToStreet street =>
      withManager pg (advanceToStreet (manager pg) street).1
  end.

Definition calls (pg : Page) (cs : list Call) : Page := foldl call pg cs.

(** [initializeHand] and [endHand] assign a new object to [playerStatus]. *)
Definition replacesRegistry (c : Call) : bool :=
  match c with
  | CallInitializeHand _ _ _ | CallEndHand => true
  | _ => false
  end.

(** [window.actionManager.getActivePlayers(players)]:
    [players.filter(p => this.playerStatus[p.name] === 'active')], with
    [this.playerStatus] the layer's own reference. *)
Definition layerStatus (pg : Page) (n : string) : option Status :=
  store pg !! layerRegistry pg ≫= (.!! n).

Definition getActivePlayers (pg : Page) (players : list Player) : list Player :=
  filter (λ p, layerStatus pg (name p) = Some active) players.

(** What every call keeps: the manager's registry object holds the
    manager's registry, and both references are allocated addresses. *)
Definition pageOk (pg : Page) : Prop :=
  store pg !! managerRegistry pg = Some (playerStatus (manager pg)) ∧
  managerRegistry pg < nextAddress pg ∧
  layerRegistry pg < nextAddress pg.

Definition isUpdate (c : Call) : bool :=
  match c with
  | CallUpdatePlayerStatus _ _ => true
  | _ => false
  end.

(** Closed decidable goals are settled by evaluation. *)
Ltac by_compute := apply (bool_decide_unpack _); vm_compute; exact I.

(** * Properties *)

(** ** Loops *)

Section loops.
Context {A B : Type}.

Lemma foldl_push (f : A → B) (xs : list A) (acc : list B) :
  foldl (λ acc x, acc ++ [f x]) acc xs = acc ++ (f <$> xs).
Proof.
  revert acc. induction xs as [|x xs IH]; intros acc; simpl.
  - by rewrite app_nil_r.
  - rewrite IH, <- app_assoc. done.
Qed.

(** A loop whose body pushes one element per iteration, related to the
    iteration's value and to the length of the array at that point. *)
Lemma for_each_push (R : nat → A → B → Prop)
    (body : list B → A → outcome (list B)) (xs : list A) (acc : list B) :
  (∀ acc x, x ∈ xs → ∃ y, body acc x = Ret (acc ++ [y]) ∧ R (length acc) x y) →
  ∃ ys, for_each body xs acc = Ret (acc ++ ys) ∧
        length ys = length xs ∧
        ∀ k x, xs !! k = Some x → ∃ y, ys !! k = Some y ∧ R (length acc + k) x y.
Proof.
  revert acc. induction xs as [|x xs IH]; intros acc Hbody.
  - exists []. simpl. rewrite app_nil_r. split_and!; [done..|]. intros ?? [=].
  - destruct (Hbody acc x) as (y & Hy & HR); [left|].
    destruct (IH (acc ++ [y])) as (ys & Hys & Hlen & Hk).
    { intros acc' x' Hx'. apply Hbody. by right. }
    exists (y :: ys). simpl. rewrite Hy, Hys, <- app_assoc. split_and!; [done|by f_equal|].
    intros [|k] x'; simpl.
    + intros [= <-]. exists y. by rewrite Nat.add_0_r.
    + intros Hx'. destruct (Hk k x' Hx') as (y' & ? & HR').
      exists y'. split; [done|]. rewrite length_app in HR'. simpl in HR'.
      by replace (length acc + S k) with (length acc + 1 + k) by lia.
Qed.
End loops.

(** ** Writes to plain objects *)

Lemma jsSet_ordinary {V : Type} (own : gmap string V) (k : string) (v : V) :
  k ≠ "__proto__"%string → jsSet own k v = <[k := v]> own.
Proof. intros Hk. unfold jsSet. rewrite decide_False; [done|]. by intros [? _]. Qed.

(** An object without own property ['__proto__'] never gets one. *)
Lemma jsSet_proto {V : Type} (own : gmap string V) (k : string) (v : V) :
  own !! "__proto__"%string = None → jsSet own k v !! "__proto__"%string = None.
Proof.
  intros Hown. unfold jsSet. case_decide as Hk; [done|].
  rewrite lookup_insert_ne; [done|]. intros ->. by apply Hk.
Qed.

Lemma jsSet_lookup_ne {V : Type} (own : gmap string V) (k k' : string) (v : V) :
  k' ≠ "__proto__"%string →
  jsSet own k v !! k' = if decide (k = k') then Some v else own !! k'.
Proof.
  intros Hk'. unfold jsSet. case_decide as Hk.
  - destruct Hk as [-> _]. by rewrite decide_False.
  - case_decide as Heq; [subst; apply lookup_insert_eq|by apply lookup_insert_ne].
Qed.

Lemma jsSet_own {V : Type} (own : gmap string V) (k : string) (v : V) :
  is_Some (own !! k) → jsSet own k v = <[k := v]> own.
Proof.
  intros [w Hw]. unfold jsSet. rewrite decide_False; [done|].
  intros [_ Hnone]. congruence.
Qed.

Lemma jsSet_lookup {V : Type} (own : gmap string V) (k k' : string) (v : V) :
  jsSet own k v !! k' =
    if decide (k = "__proto__"%string ∧ own !! k = None) then own !! k'
    else if decide (k = k') then Some v else own !! k'.
Proof.
  unfold jsSet. case_decide as Hk; [done|].
  case_decide as Heq; [subst; apply lookup_insert_eq|by apply lookup_insert_ne].
Qed.

(** ** [indexOf] *)

Lemma indexOf_None (l : list Z) (x : Z) : indexOf l x = None ↔ x ∉ l.
Proof.
  induction l as [|y l IH]; simpl.
  - split; [intros _; apply not_elem_of_nil|done].
  - rewrite not_elem_of_cons. destruct (decide (y = x)) as [->|Hne].
    + split; [done|]. intros [? _]. done.
    + rewrite fmap_None, IH. split; [by split|by intros [_ ?]].
Qed.

Lemma indexOf_Some (l : list Z) (x : Z) (i : nat) :
  indexOf l x = Some i → l !! i = Some x.
Proof.
  revert i. induction l as [|y l IH]; intros i; simpl; [done|].
  destruct (decide (y = x)) as [->|Hne].
  - by intros [= <-].
  - intros (j & Hj & ->)%fmap_Some. simpl. by apply IH.
Qed.

Lemma indexOf_elem_of (l : list Z) (x : Z) :
  x ∈ l → ∃ i, indexOf l x = Some i.
Proof.
  intros Hx. destruct (indexOf l x) as [i|] eqn:E; [by exists i|].
  by apply indexOf_None in E.
Qed.

(** ** The seat map and its sorted keys *)

Lemma buildSeatMap_snoc (players : list Player) (p : Player) :
  buildSeatMap (players ++ [p]) = <[seat p := p]> (buildSeatMap players).
Proof. unfold buildSeatMap. by rewrite foldl_app. Qed.

(** A later player at the same seat overwrites the earlier one. *)
Lemma buildSeatMap_lookup (players : list Player) (s : Z) :
  buildSeatMap players !! s = seatHolder players s.
Proof.
  unfold seatHolder.
  induction players as [|p players IH] using rev_ind; [done|].
  rewrite buildSeatMap_snoc, filter_app.
  destruct (decide (seat p = s)) as [<-|Hne].
  - rewrite lookup_insert_eq.
    rewrite (filter_cons_True _ p), filter_nil by done.
    by rewrite last_snoc.
  - rewrite lookup_insert_ne by done.
    rewrite (filter_cons_False _ p), filter_nil by done.
    by rewrite app_nil_r.
Qed.

Lemma seatHolder_Some (players : list Player) (s : Z) (p : Player) :
  seatHolder players s = Some p → p ∈ players ∧ seat p = s.
Proof.
  unfold seatHolder. intros H%last_Some_elem_of.
  apply list_elem_of_filter in H. naive_solver.
Qed.

Lemma seatHolder_is_Some (players : list Player) (s : Z) :
  is_Some (seatHolder players s) ↔ ∃ p, p ∈ players ∧ seat p = s.
Proof.
  split.
  - intros [p Hp]. exists p. by apply seatHolder_Some.
  - intros (p & Hp & Hs). unfold seatHolder.
    destruct (last _) as [q|] eqn:E; [by eexists|].
    apply last_None in E.
    assert (p ∈ filter (λ p, seat p = s) players) as Hin
      by by apply list_elem_of_filter.
    rewrite E in Hin. by apply elem_of_nil in Hin.
Qed.

Lemma elem_of_sortedKeys (m : gmap Z Player) (s : Z) :
  s ∈ sortedKeys m ↔ is_Some (m !! s).
Proof.
  unfold sortedKeys. rewrite merge_sort_Permutation, list_elem_of_fmap.
  split.
  - intros ([k p] & -> & H). apply elem_of_map_to_list in H. by eexists.
  - intros [p Hp]. exists (s, p). split; [done|]. by apply elem_of_map_to_list.
Qed.

Lemma NoDup_sortedKeys (m : gmap Z Player) : NoDup (sortedKeys m).
Proof.
  unfold sortedKeys. rewrite merge_sort_Permutation. apply NoDup_fst_map_to_list.
Qed.

Lemma Sorted_sortedKeys (m : gmap Z Player) : StronglySorted Z.le (sortedKeys m).
Proof. apply StronglySorted_merge_sort; apply _. Qed.

Lemma elem_of_occupiedSeats (players : list Player) (s : Z) :
  s ∈ occupiedSeats players ↔ ∃ p, p ∈ players ∧ seat p = s.
Proof.
  unfold occupiedSeats.
  by rewrite elem_of_sortedKeys, buildSeatMap_lookup, seatHolder_is_Some.
Qed.

(** The occupied seats are the distinct seat numbers of the player list. *)
Lemma occupiedSeats_distinct (players : list Player) :
  occupiedSeats players ≡ₚ remove_dups (seat <$> players).
Proof.
  apply NoDup_Permutation.
  - apply NoDup_sortedKeys.
  - apply NoDup_remove_dups.
  - intros s. rewrite elem_of_occupiedSeats, elem_of_remove_dups, list_elem_of_fmap.
    naive_solver.
Qed.

Lemma length_occupiedSeats (players : list Player) :
  length (occupiedSeats players) = length (remove_dups (seat <$> players)).
Proof. by rewrite occupiedSeats_distinct. Qed.

(** ** Resolving the seat and player of a relative index *)

Section resolve.
Variable players : list Player.
Variable buttonSeat : Z.
Variable btnIndex : nat.
Hypothesis Hbtn : indexOf (occupiedSeats players) buttonSeat = Some btnIndex.

Local Abbreviation occ := (occupiedSeats players).
Local Abbreviation N := (length (occupiedSeats players)).

Lemma btnIndex_lt : btnIndex < N.
Proof. apply indexOf_Some in Hbtn. by apply lookup_lt_Some in Hbtn. Qed.

Lemma rotatedSeat_resolves (i : nat) :
  ∃ s p, rotatedSeat occ btnIndex i = Some s ∧
         buildSeatMap players !! s = Some p ∧
         seatHolder players s = Some p.
Proof.
  pose proof btnIndex_lt as Hlt.
  destruct (lookup_lt_is_Some_2 occ ((btnIndex + i + 1) `mod` N)) as [s Hs].
  { apply Nat.mod_upper_bound. lia. }
  assert (s ∈ occ) as [p Hp]%elem_of_sortedKeys
    by (apply list_elem_of_lookup; eauto).
  exists s, p. split_and!; [done..|]. by rewrite <- buildSeatMap_lookup.
Qed.

Lemma resolvedSlot_is_Some (i : nat) (position : PositionLabel) (priority : nat) :
  is_Some (resolvedSlot players btnIndex i position priority).
Proof.
  destruct (rotatedSeat_resolves i) as (s & p & Hs & _ & Hp).
  unfold resolvedSlot. rewrite Hs. simpl. rewrite Hp. simpl. by eexists.
Qed.

(** The [positions] array holds one entry per relative index. *)
Lemma assignPositions_lookup (i : nat) :
  i < N →
  assignPositions (buildSeatMap players) occ btnIndex N !! i =
    Some {| pe_player := rotatedSeat occ btnIndex i ≫= (buildSeatMap players !!.);
            pe_seat := rotatedSeat occ btnIndex i;
            pe_position := preflopPosition N i;
            pe_index := i |}.
Proof.
  intros Hi. unfold assignPositions. rewrite foldl_push. simpl.
  rewrite list_lookup_fmap, lookup_seq_lt by done. done.
Qed.

Lemma pushEntry_resolved (order : list ActionSlot) (i : nat)
    (position : PositionEntry → PositionLabel) (label : PositionLabel) :
  i < N →
  (∀ e, pe_position e = preflopPosition N i → position e = label) →
  ∃ y, pushEntry order
         (assignPositions (buildSeatMap players) occ btnIndex N !! i) position
       = Ret (order ++ [y]) ∧
       resolvedSlot players btnIndex i label (length order) = Some y.
Proof.
  intros Hi Hpos. rewrite assignPositions_lookup by done.
  destruct (rotatedSeat_resolves i) as (s & p & Hs & Hm & Hp).
  unfold pushEntry, resolvedSlot. simpl. rewrite Hs. simpl.
  rewrite Hm, Hp. simpl. rewrite Hpos by done. by eexists.
Qed.

Lemma createPostflopOrder_spec :
  ∃ order, createPostflopOrder players buttonSeat = Ret order ∧
    length order = N ∧
    ∀ i, i < N →
      order !! i = resolvedSlot players btnIndex i (postflopPosition N i) i.
Proof.
  unfold createPostflopOrder. fold (occupiedSeats players). rewrite Hbtn.
  edestruct (for_each_push
    (λ _ i y, resolvedSlot players btnIndex i (postflopPosition N i) i = Some y))
    as (ys & Hret & Hlen & Hk); [|rewrite Hret].
  { intros acc i _. destruct (rotatedSeat_resolves i) as (s & p & Hs & Hm & Hp).
    unfold rotatedSeat in Hs. rewrite Hs. simpl. rewrite Hm.
    eexists. split; [done|].
    unfold resolvedSlot, rotatedSeat. rewrite Hs. simpl. by rewrite Hp. }
  exists ys. rewrite length_seq in Hlen. split_and!; [done..|].
  intros i Hi. destruct (Hk i i) as (y & -> & <-); [by apply lookup_seq_lt|done].
Qed.

Lemma createPreflopOrder_spec :
  2 ≤ N →
  ∃ order, createPreflopOrder players buttonSeat = Ret order ∧
    length order = N ∧
    (∀ i, 2 ≤ i < N →
       order !! (i - 2) =
         resolvedSlot players btnIndex i (preflopPosition N i) (i - 2)) ∧
    order !! (N - 2) = resolvedSlot players btnIndex 0 SB (N - 2) ∧
    order !! (N - 1) = resolvedSlot players btnIndex 1 BB (N - 1).
Proof.
  intros HN. unfold createPreflopOrder. fold (occupiedSeats players).
  rewrite Hbtn.
  edestruct (for_each_push
    (λ len i y,
       resolvedSlot players btnIndex i (preflopPosition N i) len = Some y)
    (λ order i, pushEntry order
       (assignPositions (buildSeatMap players) occ btnIndex N !! i) pe_position)
    (seq 2 (N - 2)) [])
    as (ys & Hret & Hlen & Hk).
  { intros acc i [_ Hi]%elem_of_seq. apply pushEntry_resolved; [lia|done]. }
  rewrite length_seq in Hlen. simpl in Hret.
  destruct (pushEntry_resolved ys 0 (λ _, SB) SB) as (sb & Hsb & Hsb'); [lia|done|].
  destruct (pushEntry_resolved (ys ++ [sb]) 1 (λ _, BB) BB) as (bb & Hbb & Hbb');
    [lia|done|].
  rewrite length_app in Hbb'. simpl in Hbb'.
  exists ((ys ++ [sb]) ++ [bb]).
  split_and!.
  - unfold mbind, outcome_bind. rewrite Hret, Hsb, Hbb. done.
  - rewrite !length_app. simpl. lia.
  - intros i Hi. destruct (Hk (i - 2) i) as (y & Hy & HR).
    { apply lookup_seq. lia. }
    simpl in HR. rewrite HR.
    rewrite <- app_assoc. by apply lookup_app_l_Some.
  - rewrite Hlen in Hsb'. rewrite Hsb'.
    rewrite lookup_app_l by (rewrite length_app; simpl; lia).
    rewrite lookup_app_r by lia. by replace (N - 2 - length ys) with 0 by lia.
  - replace (length ys + 1) with (N - 1) in Hbb' by lia. rewrite Hbb'.
    rewrite lookup_app_r by (rewrite length_app; simpl; lia).
    rewrite length_app. simpl. by replace (N - 1 - (length ys + 1)) with 0 by lia.
Qed.
End resolve.

(** ** Position labels *)

Lemma preflopPosition_spec (N i : nat) : preflopPosition N i = specPosition N i.
Proof.
  unfold preflopPosition, specPosition, precedence, firstMatch.
  repeat case_decide; repeat case_bool_decide; done || lia.
Qed.

Lemma postflopPosition_spec (N i : nat) : postflopPosition N i = specPosition N i.
Proof.
  unfold postflopPosition, specPosition, precedence, firstMatch.
  repeat case_decide; repeat case_bool_decide; done || lia.
Qed.

(** The precedence list read case by case: each rule applies when it matches
    and no earlier rule does. *)
Lemma specPosition_cases (N i : nat) :
  (i = 0 → specPosition N i = SB) ∧
  (i = 1 → specPosition N i = BB) ∧
  (2 ≤ i → i + 1 = N → specPosition N i = BTN) ∧
  (i = 2 → i + 1 ≠ N → specPosition N i = UTG) ∧
  (i = 3 → i + 1 ≠ N → specPosition N i = UTG1) ∧
  (i = 4 → i + 1 ≠ N → specPosition N i = MP1) ∧
  (i = 5 → i + 1 ≠ N → specPosition N i = MP2) ∧
  (6 ≤ i → i + 1 ≠ N → i + 2 = N → specPosition N i = CO) ∧
  (6 ≤ i → i + 1 ≠ N → i + 2 ≠ N → specPosition N i = MP (Z.of_nat i - 2)).
Proof.
  unfold specPosition, precedence, firstMatch.
  split_and!; intros; repeat case_bool_decide; done || lia.
Qed.

Lemma resolvedSlot_fields (players : list Player) (b i : nat)
    (position : PositionLabel) (priority : nat) (slot : ActionSlot) :
  resolvedSlot players b i position priority = Some slot →
  rotatedSeat (occupiedSeats players) b i = Some (slot_seat slot) ∧
  (∃ p, seatHolder players (slot_seat slot) = Some p ∧ slot_player slot = name p) ∧
  slot_position slot = position ∧
  slot_priority slot = priority.
Proof.
  unfold resolvedSlot. intros H.
  destruct (rotatedSeat _ _ _) as [s|]; [|done]. simpl in H.
  destruct (seatHolder players s) as [p|] eqn:Hp; [|done]. simpl in H.
  injection H as <-. simpl. split_and!; [done| |done..]. by exists p.
Qed.

(** ** The clockwise order of the seats *)

Lemma filter_all {A : Type} (P : A → Prop) `{!∀ x, Decision (P x)} (l : list A) :
  Forall P l → filter P l = l.
Proof.
  induction 1 as [|x l HP _ IH]; [done|].
  by rewrite filter_cons_True, IH.
Qed.

Lemma filter_none {A : Type} (P : A → Prop) `{!∀ x, Decision (P x)} (l : list A) :
  Forall (λ x, ¬ P x) l → filter P l = [].
Proof.
  induction 1 as [|x l HP _ IH]; [done|].
  by rewrite filter_cons_False, IH.
Qed.

Lemma mod_wrap (a N : nat) : N ≤ a < 2 * N → a `mod` N = a - N.
Proof. intros H. symmetry. apply (Nat.mod_unique a N 1); lia. Qed.

(** The relative index [N - 1] is the button seat itself. *)
Lemma rotatedSeat_last (occ : list Z) (b : nat) (s : Z) :
  occ !! b = Some s → rotatedSeat occ b (length occ - 1) = Some s.
Proof.
  intros Hb. pose proof (lookup_lt_Some _ _ _ Hb) as Hlt.
  unfold rotatedSeat. rewrite mod_wrap by lia.
  by replace (b + (length occ - 1) + 1 - length occ) with b by lia.
Qed.

(** In an increasing list without repetition, the elements up to a position
    are those not above its element, the rest those above. *)
Lemma sorted_split (occ : list Z) (b : nat) (x : Z) :
  StronglySorted Z.le occ → NoDup occ → occ !! b = Some x →
  take (S b) occ = filter (λ s, (s ≤ x)%Z) occ ∧
  drop (S b) occ = filter (λ s, (x < s)%Z) occ.
Proof.
  intros Hsorted. revert b.
  induction Hsorted as [|y l Hsorted IH Hle]; intros b Hnd Hb; [done|].
  apply NoDup_cons in Hnd as [Hy Hnd].
  assert (Forall (λ s, (y < s)%Z) l) as Hlt.
  { rewrite Forall_forall in *. intros s Hs.
    specialize (Hle s Hs). assert (y ≠ s) by (by intros ->). lia. }
  destruct b as [|b]; simpl in Hb.
  - injection Hb as ->. rewrite filter_cons_True, filter_cons_False by lia.
    rewrite filter_none, filter_all; [done|done|].
    eapply Forall_impl; [exact Hlt|]. simpl. lia.
  - destruct (IH b Hnd Hb) as [Htake Hdrop].
    assert (y < x)%Z
      by (rewrite Forall_forall in Hlt; apply Hlt, list_elem_of_lookup; eauto).
    rewrite filter_cons_True, filter_cons_False by lia.
    simpl. by rewrite <- Htake, <- Hdrop.
Qed.

(** A list of seats that follows the relative indices is the clockwise
    order from the seat after the button: the occupied seats above the
    button in increasing order, then those up to the button in increasing
    order. *)
Lemma seats_clockwise (players : list Player) (button : Z) (b : nat)
    (seats : list Z) :
  indexOf (occupiedSeats players) button = Some b →
  length seats = length (occupiedSeats players) →
  (∀ i, i < length (occupiedSeats players) →
     seats !! i = rotatedSeat (occupiedSeats players) b i) →
  seats =
    filter (λ s, (button < s)%Z) (occupiedSeats players)
    ++ filter (λ s, (s ≤ button)%Z) (occupiedSeats players).
Proof.
  intros Hb Hlen Hseats.
  pose proof (indexOf_Some _ _ _ Hb) as Hocc.
  pose proof (lookup_lt_Some _ _ _ Hocc) as Hlt.
  set (occ := occupiedSeats players) in *. set (N := length occ) in *.
  destruct (sorted_split occ b button) as [Htake Hdrop];
    [apply Sorted_sortedKeys|apply NoDup_sortedKeys|done|].
  rewrite <- Htake, <- Hdrop.
  apply list_eq. intros k.
  destruct (decide (k < N)) as [Hk|Hk].
  - rewrite Hseats by done. unfold rotatedSeat. fold N.
    destruct (decide (b + k + 1 < N)).
    + rewrite Nat.mod_small by lia.
      rewrite lookup_app_l by (rewrite length_drop; lia).
      rewrite lookup_drop. f_equal. lia.
    + rewrite mod_wrap by lia.
      rewrite lookup_app_r by (rewrite length_drop; lia).
      rewrite length_drop, lookup_take_lt by lia. f_equal. lia.
  - rewrite !lookup_ge_None_2; [done| |lia].
    rewrite length_app, length_drop, length_take. lia.
Qed.

(** ** The preflop table *)

(** C1.  With [N >= 2] distinct occupied seats and the button among them,
    [createPreflopOrder] returns the slots of the relative indices
    [2 .. N-1] in rotation order, followed by the slot of index [0] labelled
    SB and the slot of index [1] labelled BB; priorities are the emission
    indices.  The occupied seats are the seat numbers of the players, in
    increasing order and without repetition, and the seats of the slots of
    the indices [0, 1, 2, .., N-1] are the clockwise order from the seat
    after the button: the occupied seats above the button in increasing
    order, then those up to the button. *)
Theorem C1_preflop_order (players : list Player) (buttonSeat : Z) :
  let occ := occupiedSeats players in
  let N := length occ in
  2 ≤ N →
  buttonSeat ∈ occ →
  StronglySorted Z.le occ ∧
  NoDup occ ∧
  (∀ s, s ∈ occ ↔ ∃ p, p ∈ players ∧ seat p = s) ∧
  ∃ btnIndex front sb bb,
    occ !! btnIndex = Some buttonSeat ∧
    createPreflopOrder players buttonSeat = Ret (front ++ [sb; bb]) ∧
    length front = N - 2 ∧
    (∀ k, k < N - 2 →
       front !! k =
         resolvedSlot players btnIndex (k + 2) (preflopPosition N (k + 2)) k) ∧
    resolvedSlot players btnIndex 0 SB (N - 2) = Some sb ∧
    resolvedSlot players btnIndex 1 BB (N - 1) = Some bb ∧
    slot_position sb = SB ∧
    slot_position bb = BB ∧
    slot_seat <$> (sb :: bb :: front) =
      filter (λ s, (buttonSeat < s)%Z) occ
      ++ filter (λ s, (s ≤ buttonSeat)%Z) occ ∧
    (∀ slot, slot ∈ front ++ [sb; bb] →
       ∃ p, seatHolder players (slot_seat slot) = Some p ∧
            slot_player slot = name p).
Proof.
  intros occ N HN Hin.
  split_and!; [apply Sorted_sortedKeys|apply NoDup_sortedKeys|
               apply elem_of_occupiedSeats|].
  destruct (indexOf_elem_of _ _ Hin) as [b Hb].
  destruct (createPreflopOrder_spec players buttonSeat b Hb HN)
    as (order & Hret & Hlen & Hmid & Hsb & Hbb).
  fold occ in Hlen, Hmid, Hsb, Hbb. fold N in Hlen, Hmid, Hsb, Hbb.
  destruct (resolvedSlot_is_Some players buttonSeat b Hb 0 SB (N - 2)) as [sb Hsb'].
  destruct (resolvedSlot_is_Some players buttonSeat b Hb 1 BB (N - 1)) as [bb Hbb'].
  rewrite Hsb' in Hsb. rewrite Hbb' in Hbb.
  assert (order = take (N - 2) order ++ [sb; bb]) as Horder.
  { rewrite <- (take_drop (N - 2) order) at 1. f_equal.
    apply list_eq. intros [|[|k]]; rewrite lookup_drop; simpl.
    - by rewrite Nat.add_0_r.
    - by replace (N - 2 + 1) with (N - 1) by lia.
    - apply lookup_ge_None. lia. }
  assert (∀ k, k < N - 2 →
            take (N - 2) order !! k =
              resolvedSlot players b (k + 2) (preflopPosition N (k + 2)) k)
    as Hfront.
  { intros k Hk. rewrite lookup_take_lt by done.
    specialize (Hmid (k + 2)). replace (k + 2 - 2) with k in Hmid by lia.
    apply Hmid. lia. }
  exists b, (take (N - 2) order), sb, bb.
  split_and!.
  - by apply indexOf_Some.
  - by rewrite <- Horder.
  - rewrite length_take. lia.
  - done.
  - done.
  - done.
  - by apply resolvedSlot_fields in Hsb' as (_ & _ & ? & _).
  - by apply resolvedSlot_fields in Hbb' as (_ & _ & ? & _).
  - apply (seats_clockwise players buttonSeat b); [done| |].
    + simpl. rewrite length_fmap, length_take. fold occ N. lia.
    + fold occ N. intros [|[|k]] Hk; simpl.
      * apply resolvedSlot_fields in Hsb' as (Hs & _). symmetry. exact Hs.
      * apply resolvedSlot_fields in Hbb' as (Hs & _). symmetry. exact Hs.
      * rewrite list_lookup_fmap, Hfront by lia.
        destruct (resolvedSlot_is_Some players buttonSeat b Hb (k + 2)
                    (preflopPosition N (k + 2)) k) as [slot Hslot].
        rewrite Hslot. simpl.
        apply resolvedSlot_fields in Hslot as (Hs & _).
        replace (S (S k)) with (k + 2) by lia. symmetry. exact Hs.
  - intros slot Hslot. rewrite <- Horder in Hslot.
    apply list_elem_of_lookup in Hslot as [k Hk].
    pose proof (lookup_lt_Some _ _ _ Hk) as Hlt. rewrite Hlen in Hlt.
    destruct (decide (k < N - 2)); [|destruct (decide (k = N - 2)) as [->|]].
    + specialize (Hmid (k + 2)). replace (k + 2 - 2) with k in Hmid by lia.
      rewrite Hmid in Hk by lia.
      by apply resolvedSlot_fields in Hk as (_ & ? & _).
    + rewrite Horder in Hk.
      rewrite lookup_app_r in Hk by (rewrite length_take; lia).
      rewrite length_take in Hk.
      replace (N - 2 - (N - 2) `min` length order) with 0 in Hk by lia.
      injection Hk as <-.
      by apply resolvedSlot_fields in Hsb' as (_ & ? & _).
    + replace k with (N - 1) in Hk by lia. rewrite Horder in Hk.
      rewrite lookup_app_r in Hk by (rewrite length_take; lia).
      rewrite length_take in Hk.
      replace (N - 1 - (N - 2) `min` length order) with 1 in Hk by lia.
      injection Hk as <-.
      by apply resolvedSlot_fields in Hbb' as (_ & ? & _).
Qed.

Lemma C1_witness :
  (StronglySorted Z.le (occupiedSeats table4) ∧
   NoDup (occupiedSeats table4) ∧
   (∀ s, s ∈ occupiedSeats table4 ↔ ∃ p, p ∈ table4 ∧ seat p = s) ∧
   ∃ btnIndex front sb bb,
     occupiedSeats table4 !! btnIndex = Some 7%Z ∧
     createPreflopOrder table4 7 = Ret (front ++ [sb; bb]) ∧
     length front = 4 - 2 ∧
     (∀ k, k < 4 - 2 →
        front !! k =
          resolvedSlot table4 btnIndex (k + 2) (preflopPosition 4 (k + 2)) k) ∧
     resolvedSlot table4 btnIndex 0 SB (4 - 2) = Some sb ∧
     resolvedSlot table4 btnIndex 1 BB (4 - 1) = Some bb ∧
     slot_position sb = SB ∧
     slot_position bb = BB ∧
     slot_seat <$> (sb :: bb :: front) = [1; 3; 5; 7]%Z ∧
     (∀ slot, slot ∈ front ++ [sb; bb] →
        ∃ p, seatHolder table4 (slot_seat slot) = Some p ∧
             slot_player slot = name p)) ∧
  occupiedSeats table4 = [1; 3; 5; 7]%Z ∧
  createPreflopOrder table4 7 =
    Ret [ {| slot_player := "Cyd"; slot_seat := 5;
             slot_position := UTG; slot_priority := 0 |};
          {| slot_player := "Dee"; slot_seat := 7;
             slot_position := BTN; slot_priority := 1 |};
          {| slot_player := "Ann"; slot_seat := 1;
             slot_position := SB; slot_priority := 2 |};
          {| slot_player := "Bob"; slot_seat := 3;
             slot_position := BB; slot_priority := 3 |} ].
Proof.
  split; [|split; reflexivity].
  apply (C1_preflop_order table4 7).
  - vm_compute. lia.
  - by_compute.
Defined.

(** ** The postflop table *)

(** C2 as stated fails heads-up: with two seats the last entry is labelled
    BB, because the rule [i = 1] precedes the rule [i = N - 1]. *)
Lemma C2_counterexample :
  ¬ (∀ (players : list Player) (buttonSeat : Z),
       2 ≤ length (occupiedSeats players) →
       buttonSeat ∈ occupiedSeats players →
       ∃ order, createPostflopOrder players buttonSeat = Ret order ∧
                slot_position <$> order !! 0 = Some SB ∧
                slot_position <$> order !! 1 = Some BB ∧
                slot_position <$> last order = Some BTN).
Proof.
  intros H. destruct (H table2 1%Z) as (order & Hret & _ & _ & Hlast).
  - vm_compute. lia.
  - by_compute.
  - vm_compute in Hret. injection Hret as <-. vm_compute in Hlast. discriminate.
Qed.

(** C2 (amended).  With [N >= 2] distinct occupied seats and the button among
    them, [createPostflopOrder] returns the [N] slots of the relative indices
    [0 .. N-1] in rotation order, with priority [i] at index [i]: the occupied
    seats are the seat numbers of the players in increasing order without
    repetition, and the seats of the table are the occupied seats above the
    button in increasing order followed by those up to the button, each slot
    carrying the name of the seat's holder.  The first two entries are
    labelled SB and BB; the last entry is the slot of the button seat,
    labelled BTN when [N >= 3] and BB when [N = 2]. *)
Theorem C2_postflop_order (players : list Player) (buttonSeat : Z) :
  let occ := occupiedSeats players in
  let N := length occ in
  2 ≤ N →
  buttonSeat ∈ occ →
  StronglySorted Z.le occ ∧
  NoDup occ ∧
  (∀ s, s ∈ occ ↔ ∃ p, p ∈ players ∧ seat p = s) ∧
  ∃ btnIndex order,
    occ !! btnIndex = Some buttonSeat ∧
    createPostflopOrder players buttonSeat = Ret order ∧
    length order = N ∧
    (∀ i, i < N →
       order !! i = resolvedSlot players btnIndex i (postflopPosition N i) i) ∧
    slot_position <$> order !! 0 = Some SB ∧
    slot_position <$> order !! 1 = Some BB ∧
    slot_seat <$> last order = Some buttonSeat ∧
    slot_position <$> last order = Some (if decide (N = 2) then BB else BTN) ∧
    slot_seat <$> order =
      filter (λ s, (buttonSeat < s)%Z) occ
      ++ filter (λ s, (s ≤ buttonSeat)%Z) occ ∧
    slot_priority <$> order = seq 0 N ∧
    (∀ slot, slot ∈ order →
       ∃ p, seatHolder players (slot_seat slot) = Some p ∧
            slot_player slot = name p).
Proof.
  intros occ N HN Hin.
  split_and!; [apply Sorted_sortedKeys|apply NoDup_sortedKeys|
               apply elem_of_occupiedSeats|].
  destruct (indexOf_elem_of _ _ Hin) as [b Hb].
  destruct (createPostflopOrder_spec players buttonSeat b Hb)
    as (order & Hret & Hlen & Hall).
  fold occ in Hlen, Hall. fold N in Hlen, Hall.
  pose proof (indexOf_Some _ _ _ Hb) as Hocc.
  assert (∀ i, i < N → ∃ slot, order !! i = Some slot ∧
            slot_position slot = postflopPosition N i ∧
            rotatedSeat occ b i = Some (slot_seat slot) ∧
            slot_priority slot = i ∧
            ∃ p, seatHolder players (slot_seat slot) = Some p ∧
                 slot_player slot = name p) as Hslot.
  { intros i Hi. rewrite (Hall i Hi).
    destruct (resolvedSlot_is_Some players buttonSeat b Hb i
                (postflopPosition N i) i) as [slot Hs].
    exists slot. split; [done|].
    by apply resolvedSlot_fields in Hs as (? & ? & ? & ?). }
  exists b, order. split_and!; [done..| | | | | | |].
  - destruct (Hslot 0) as (slot & -> & Hp & _); [lia|]. simpl. by rewrite Hp.
  - destruct (Hslot 1) as (slot & -> & Hp & _); [lia|]. simpl. by rewrite Hp.
  - rewrite last_lookup, Hlen. replace (Init.Nat.pred N) with (N - 1) by lia.
    destruct (Hslot (N - 1)) as (slot & -> & _ & Hseat & _); [lia|]. simpl.
    pose proof (rotatedSeat_last occ b buttonSeat Hocc) as Hbtn.
    fold N in Hbtn. congruence.
  - rewrite last_lookup, Hlen. replace (Init.Nat.pred N) with (N - 1) by lia.
    destruct (Hslot (N - 1)) as (slot & -> & Hp & _); [lia|]. simpl. rewrite Hp. f_equal.
    unfold postflopPosition. repeat case_decide; done || lia.
  - apply (seats_clockwise players buttonSeat b); [done| |].
    + by rewrite length_fmap.
    + fold occ N. intros i Hi. rewrite list_lookup_fmap.
      destruct (Hslot i Hi) as (slot & -> & _ & Hs & _). symmetry. exact Hs.
  - apply list_eq. intros i. rewrite list_lookup_fmap.
    destruct (decide (i < N)) as [Hi|Hi].
    + destruct (Hslot i Hi) as (slot & -> & _ & _ & Hprio & _).
      simpl. by rewrite Hprio, lookup_seq_lt.
    + rewrite lookup_seq_ge by lia. by rewrite lookup_ge_None_2 by lia.
  - intros slot [i Hi]%list_elem_of_lookup.
    pose proof (lookup_lt_Some _ _ _ Hi) as Hlt. rewrite Hlen in Hlt.
    destruct (Hslot i Hlt) as (slot' & Hi' & _ & _ & _ & Hp).
    rewrite Hi in Hi'. by injection Hi' as <-.
Qed.

Lemma C2_witness :
  (StronglySorted Z.le (occupiedSeats table4) ∧
   NoDup (occupiedSeats table4) ∧
   (∀ s, s ∈ occupiedSeats table4 ↔ ∃ p, p ∈ table4 ∧ seat p = s) ∧
   ∃ btnIndex order,
     occupiedSeats table4 !! btnIndex = Some 3%Z ∧
     createPostflopOrder table4 3 = Ret order ∧
     length order = 4 ∧
     (∀ i, i < 4 →
        order !! i = resolvedSlot table4 btnIndex i (postflopPosition 4 i) i) ∧
     slot_position <$> order !! 0 = Some SB ∧
     slot_position <$> order !! 1 = Some BB ∧
     slot_seat <$> last order = Some 3%Z ∧
     slot_position <$> last order = Some BTN ∧
     slot_seat <$> order = [5; 7; 1; 3]%Z ∧
     slot_priority <$> order = seq 0 4 ∧
     (∀ slot, slot ∈ order →
        ∃ p, seatHolder table4 (slot_seat slot) = Some p ∧
             slot_player slot = name p)) ∧
  occupiedSeats table4 = [1; 3; 5; 7]%Z ∧
  createPostflopOrder table4 3 =
    Ret [ {| slot_player := "Cyd"; slot_seat := 5;
             slot_position := SB; slot_priority := 0 |};
          {| slot_player := "Dee"; slot_seat := 7;
             slot_position := BB; slot_priority := 1 |};
          {| slot_player := "Ann"; slot_seat := 1;
             slot_position := UTG; slot_priority := 2 |};
          {| slot_player := "Bob"; slot_seat := 3;
             slot_position := BTN; slot_priority := 3 |} ].
Proof.
  split; [|split; reflexivity].
  apply (C2_postflop_order table4 3).
  - vm_compute. lia.
  - by_compute.
Defined.

(** ** One labelling rule for both tables *)

(** C3.  Both copies of the labelling chain compute the precedence list of
    the specification (first match wins), and with [N >= 2] seats and a valid
    button the slot of every relative index [i <= N - 1] carries that label in
    the postflop table (at index [i]) and in the preflop table (at index
    [(i + N - 2) mod N], the slots of indices 0 and 1 being moved last). *)
Theorem C3_position_labels (players : list Player) (buttonSeat : Z) :
  let occ := occupiedSeats players in
  let N := length occ in
  2 ≤ N →
  buttonSeat ∈ occ →
  (∀ i, preflopPosition N i = specPosition N i ∧
        postflopPosition N i = specPosition N i) ∧
  ∃ btnIndex pre post,
    occ !! btnIndex = Some buttonSeat ∧
    createPreflopOrder players buttonSeat = Ret pre ∧
    createPostflopOrder players buttonSeat = Ret post ∧
    ∀ i, i < N →
      ∃ s slot1 slot2,
        rotatedSeat occ btnIndex i = Some s ∧
        post !! i = Some slot1 ∧
        slot_seat slot1 = s ∧
        slot_position slot1 = specPosition N i ∧
        pre !! ((i + N - 2) `mod` N) = Some slot2 ∧
        slot_seat slot2 = s ∧
        slot_position slot2 = specPosition N i.
Proof.
  intros occ N HN Hin. split.
  { intros i. split; [apply preflopPosition_spec|apply postflopPosition_spec]. }
  destruct (indexOf_elem_of _ _ Hin) as [b Hb].
  destruct (createPreflopOrder_spec players buttonSeat b Hb HN)
    as (pre & Hpre & _ & Hmid & Hsb & Hbb).
  destruct (createPostflopOrder_spec players buttonSeat b Hb)
    as (post & Hpost & _ & Hall).
  fold occ in Hmid, Hsb, Hbb, Hall. fold N in Hmid, Hsb, Hbb, Hall.
  exists b, pre, post. split_and!; [by apply indexOf_Some|done..|].
  intros i Hi.
  assert (∃ prio slot2, pre !! ((i + N - 2) `mod` N) = Some slot2 ∧
            resolvedSlot players b i (specPosition N i) prio = Some slot2)
    as (prio & slot2 & Hpre2 & Hslot2).
  { destruct (decide (i = 0)) as [->|]; [|destruct (decide (i = 1)) as [->|]].
    - exists (N - 2). rewrite Nat.mod_small by lia.
      replace (0 + N - 2) with (N - 2) by lia. rewrite Hsb.
      destruct (resolvedSlot_is_Some players buttonSeat b Hb 0 SB (N - 2))
        as [slot Hs]. by exists slot.
    - exists (N - 1). rewrite Nat.mod_small by lia.
      replace (1 + N - 2) with (N - 1) by lia. rewrite Hbb.
      destruct (resolvedSlot_is_Some players buttonSeat b Hb 1 BB (N - 1))
        as [slot Hs]. by exists slot.
    - exists (i - 2). rewrite mod_wrap by lia.
      replace (i + N - 2 - N) with (i - 2) by lia. rewrite Hmid by lia.
      rewrite preflopPosition_spec.
      destruct (resolvedSlot_is_Some players buttonSeat b Hb i
                  (specPosition N i) (i - 2)) as [slot Hs]. by exists slot. }
  destruct (resolvedSlot_is_Some players buttonSeat b Hb i
              (specPosition N i) i) as [slot1 Hslot1].
  apply resolvedSlot_fields in Hslot1 as Hf1. destruct Hf1 as (Hs1 & _ & Hp1 & _).
  apply resolvedSlot_fields in Hslot2 as (Hs2 & _ & Hp2 & _).
  exists (slot_seat slot1), slot1, slot2. split_and!; [done| |done..| |done].
  - by rewrite Hall, postflopPosition_spec.
  - fold occ in Hs1, Hs2. congruence.
Qed.

Lemma C3_witness :
  (∀ i, preflopPosition 4 i = specPosition 4 i ∧
        postflopPosition 4 i = specPosition 4 i) ∧
  ∃ btnIndex pre post,
    occupiedSeats table4 !! btnIndex = Some 7%Z ∧
    createPreflopOrder table4 7 = Ret pre ∧
    createPostflopOrder table4 7 = Ret post ∧
    ∀ i, i < 4 →
      ∃ s slot1 slot2,
        rotatedSeat (occupiedSeats table4) btnIndex i = Some s ∧
        post !! i = Some slot1 ∧
        slot_seat slot1 = s ∧
        slot_position slot1 = specPosition 4 i ∧
        pre !! ((i + 4 - 2) `mod` 4) = Some slot2 ∧
        slot_seat slot2 = s ∧
        slot_position slot2 = specPosition 4 i.
Proof.
  apply (C3_position_labels table4 7).
  - vm_compute. lia.
  - by_compute.
Defined.

(** ** Soft failure on an unknown button seat *)

(** C8.  When the button seat is not an occupied seat, both builders return
    the empty table and do not throw. *)
Theorem C8_unknown_button (players : list Player) (buttonSeat : Z) :
  buttonSeat ∉ occupiedSeats players →
  createPreflopOrder players buttonSeat = Ret [] ∧
  createPostflopOrder players buttonSeat = Ret [].
Proof.
  intros Hnot%indexOf_None.
  unfold createPreflopOrder, createPostflopOrder.
  fold (occupiedSeats players). by rewrite Hnot.
Qed.

Lemma C8_witness :
  createPreflopOrder table4 4 = Ret [] ∧ createPostflopOrder table4 4 = Ret [].
Proof.
  apply (C8_unknown_button table4 4). by_compute.
Defined.

(** ** Lengths and priorities *)

Lemma initializeHand_Normal (this : Manager) (players : list Player)
    (button : Z) (hand : string) (pre post : list ActionSlot) :
  createPreflopOrder players button = Ret pre →
  createPostflopOrder players button = Ret post →
  initializeHand this players button hand =
    Normal {| handNumber := Some hand;
              buttonPosition := button;
              absoluteOrder := {| ao_preflop := pre; ao_postflop := post |};
              currentStreet := currentStreet this;
              currentActionIndex := zeroIndex;
              playerStatus := registerActive players |}.
Proof. intros Hpre Hpost. unfold initializeHand. by rewrite Hpre, Hpost. Qed.

(** C7.  With [N >= 2] distinct occupied seats and the button among them,
    [initializeHand] returns, and each of the two tables it stores has
    length [N] and priorities [0, 1, ..., N-1] in emission order. *)
Theorem C7_lengths_and_priorities (this : Manager) (players : list Player)
    (buttonSeat : Z) (hand : string) :
  let N := length (occupiedSeats players) in
  2 ≤ N →
  buttonSeat ∈ occupiedSeats players →
  ∃ this',
    initializeHand this players buttonSeat hand = Normal this' ∧
    length (ao_preflop (absoluteOrder this')) = N ∧
    length (ao_postflop (absoluteOrder this')) = N ∧
    slot_priority <$> ao_preflop (absoluteOrder this') = seq 0 N ∧
    slot_priority <$> ao_postflop (absoluteOrder this') = seq 0 N.
Proof.
  intros N HN Hin.
  destruct (indexOf_elem_of _ _ Hin) as [b Hb].
  destruct (createPreflopOrder_spec players buttonSeat b Hb HN)
    as (pre & Hpre & Hlen1 & Hmid & Hsb & Hbb).
  destruct (createPostflopOrder_spec players buttonSeat b Hb)
    as (post & Hpost & Hlen2 & Hall).
  fold N in Hlen1, Hmid, Hsb, Hbb, Hlen2, Hall.
  eexists. split; [by apply initializeHand_Normal|]. simpl.
  assert (∀ i pos k slot,
    resolvedSlot players b i pos k = Some slot → slot_priority slot = k) as Hprio.
  { intros i pos k slot Hs. by apply resolvedSlot_fields in Hs as (_ & _ & _ & ?). }
  split_and!; [done..| |].
  - apply list_eq. intros k. rewrite list_lookup_fmap.
    destruct (decide (k < N)) as [Hk|Hk].
    + rewrite lookup_seq_lt by done. simpl.
      destruct (lookup_lt_is_Some_2 pre k) as [slot Hslot]; [lia|].
      rewrite Hslot. simpl. f_equal.
      destruct (decide (k < N - 2)); [|destruct (decide (k = N - 2)) as [->|]].
      * specialize (Hmid (k + 2)). replace (k + 2 - 2) with k in Hmid by lia.
        rewrite Hmid in Hslot by lia. eauto.
      * rewrite Hsb in Hslot. eauto.
      * replace k with (N - 1) in * by lia. rewrite Hbb in Hslot. eauto.
    + rewrite lookup_seq_ge by lia. rewrite lookup_ge_None_2 by lia. done.
  - apply list_eq. intros k. rewrite list_lookup_fmap.
    destruct (decide (k < N)) as [Hk|Hk].
    + rewrite lookup_seq_lt by done. simpl.
      destruct (lookup_lt_is_Some_2 post k) as [slot Hslot]; [lia|].
      rewrite Hslot. simpl. f_equal. rewrite Hall in Hslot by done. eauto.
    + rewrite lookup_seq_ge by lia. rewrite lookup_ge_None_2 by lia. done.
Qed.

Lemma C7_witness :
  ∃ this',
    initializeHand newManager table4 7 "h1" = Normal this' ∧
    length (ao_preflop (absoluteOrder this')) = 4 ∧
    length (ao_postflop (absoluteOrder this')) = 4 ∧
    slot_priority <$> ao_preflop (absoluteOrder this') = seq 0 4 ∧
    slot_priority <$> ao_postflop (absoluteOrder this') = seq 0 4.
Proof.
  apply (C7_lengths_and_priorities newManager table4 7 "h1").
  - vm_compute. lia.
  - by_compute.
Defined.

(** ** The turn cursor *)

Lemma activeSlots_nil (this : Manager) (street : Street) :
  activeSlots this street = [] ↔
  ∀ p, p ∈ orderTable this street → ¬ isActive this p.
Proof.
  unfold activeSlots. split.
  - intros Hnil p Hp Hact.
    exact (filter_nil_not_elem_of (isActive this) _ p Hnil Hact Hp).
  - intros Hnone. destruct (filter _ _) as [|p l] eqn:E; [done|].
    assert (p ∈ filter (isActive this) (orderTable this street)) as Hp
      by (rewrite E; left).
    apply list_elem_of_filter in Hp as [Hact Hp]. by destruct (Hnone p Hp).
Qed.

Lemma getCurrentPlayer_eq (this : Manager) (street : Street) :
  getCurrentPlayer this street =
    match activeSlots this street with
    | [] => JsNull
    | _ :: _ =>
        match activeSlots this street
                !! (getIndex (currentActionIndex this) street
                      `mod` length (activeSlots this street)) with
        | Some p => JsObj p
        | None => JsUndefined
        end
    end.
Proof.
  unfold getCurrentPlayer. fold (activeSlots this street).
  destruct (activeSlots this street) as [|a l]; [done|].
  case_decide as Hlen; [simpl in Hlen; lia|done].
Qed.

(** C4.  [getCurrentPlayer(street)] takes the preflop table for the street
    preflop and the postflop table otherwise, keeps the slots whose player
    has the status active (a subsequence of the table, in table order), and
    returns the element at position [cursor mod length], where the cursor is
    the field of [currentActionIndex] for that street.  The result is an
    active player whenever the table has one, and [null] when it has
    none. *)
Theorem C4_current_player (this : Manager) (street : Street) :
  let table :=
    match street with
    | preflop => ao_preflop (absoluteOrder this)
    | flop | turn | river => ao_postflop (absoluteOrder this)
    end in
  let cursor :=
    match street with
    | preflop => ai_preflop (currentActionIndex this)
    | flop => ai_flop (currentActionIndex this)
    | turn => ai_turn (currentActionIndex this)
    | river => ai_river (currentActionIndex this)
    end in
  let actives :=
    filter (λ p, playerStatus this !! slot_player p = Some active) table in
  actives `sublist_of` table ∧
  ((∃ p, p ∈ table ∧ playerStatus this !! slot_player p = Some active) →
   ∃ p, getCurrentPlayer this street = JsObj p ∧
        actives !! (cursor `mod` length actives) = Some p ∧
        p ∈ table ∧
        playerStatus this !! slot_player p = Some active ∧
        playerStatus this !! slot_player p ≠ Some folded ∧
        playerStatus this !! slot_player p ≠ Some allin) ∧
  ((∀ p, p ∈ table → playerStatus this !! slot_player p ≠ Some active) →
   getCurrentPlayer this street = JsNull).
Proof.
  intros table cursor actives.
  assert (table = orderTable this street) as Htable by by destruct street.
  assert (cursor = getIndex (currentActionIndex this) street) as Hcursor
    by by destruct street.
  assert (actives = activeSlots this street) as Hactives
    by (unfold actives, activeSlots; by rewrite Htable).
  split_and!.
  - apply sublist_filter.
  - intros (q & Hq & Hact).
    assert (q ∈ actives) as Hin by by apply list_elem_of_filter.
    assert (0 < length actives) as Hlen
      by (destruct actives; [by apply elem_of_nil in Hin|simpl; lia]).
    destruct (lookup_lt_is_Some_2 actives (cursor `mod` length actives))
      as [p Hp]; [apply Nat.mod_upper_bound; lia|].
    exists p. rewrite getCurrentPlayer_eq, <- Hactives, <- Hcursor, Hp.
    assert (p ∈ actives) as [Hpa Hpt]%list_elem_of_filter
      by (apply list_elem_of_lookup; eauto).
    rewrite Hpa.
    split_and!; [by destruct actives|done..].
  - intros Hnone. rewrite Htable in Hnone.
    apply activeSlots_nil in Hnone. by rewrite getCurrentPlayer_eq, Hnone.
Qed.

(** ** The betting round *)

Lemma getActionOrder_canAct (this : Manager) (street : Street) :
  filter (λ e, oe_canAct e = true) (getActionOrder this street) =
    (λ p, {| oe_slot := p;
             oe_status := playerStatus this !! slot_player p;
             oe_canAct :=
               bool_decide (playerStatus this !! slot_player p = Some active) |})
    <$> activeSlots this street.
Proof.
  unfold getActionOrder, activeSlots.
  induction (orderTable this street) as [|p l IH]; [done|].
  rewrite fmap_cons, !filter_cons, IH. simpl. unfold isActive.
  destruct (decide (playerStatus this !! slot_player p = Some active)) as [H|H].
  - by rewrite decide_True by by apply bool_decide_eq_true_2.
  - by rewrite decide_False by by rewrite bool_decide_eq_false_2.
Qed.

Lemma isBettingRoundComplete_eq (this : Manager) (street : Street)
    (actions : list ActionRecord) :
  isBettingRoundComplete this street actions =
    if decide (length (activeSlots this street) ≤ 1) then true
    else forallb (λ p, hasAction (collectPlayerActions actions) (slot_player p))
           (activeSlots this street).
Proof.
  unfold isBettingRoundComplete. cbv zeta.
  rewrite getActionOrder_canAct, length_fmap.
  destruct (decide (length (activeSlots this street) ≤ 1)) as [|_]; [done|].
  assert (∀ b : bool, (if negb b then false else true) = b) as ->
    by by intros [].
  induction (activeSlots this street) as [|p l IH]; [done|].
  simpl. by rewrite <- IH.
Qed.

(** C5.  With at most one active player in the street's table the round is
    complete, whatever [actions] holds. *)
Theorem C5_single_active (this : Manager) (street : Street)
    (actions : list ActionRecord) :
  length (activeSlots this street) ≤ 1 →
  isBettingRoundComplete this street actions = true ∧
  length (filter (λ e, oe_canAct e = true) (getActionOrder this street)) =
    length (activeSlots this street).
Proof.
  intros Hle. split.
  - rewrite isBettingRoundComplete_eq. by case_decide.
  - by rewrite getActionOrder_canAct, length_fmap.
Qed.

Lemma C4_witness :
  ai_preflop (currentActionIndex utgFoldedMoved) = 4 ∧
  filter (λ p, playerStatus utgFoldedMoved !! slot_player p = Some active)
    (ao_preflop (absoluteOrder utgFoldedMoved)) =
    [ {| slot_player := "Dee"; slot_seat := 7;
         slot_position := BTN; slot_priority := 1 |};
      {| slot_player := "Ann"; slot_seat := 1;
         slot_position := SB; slot_priority := 2 |};
      {| slot_player := "Bob"; slot_seat := 3;
         slot_position := BB; slot_priority := 3 |} ] ∧
  getCurrentPlayer utgFoldedMoved preflop =
    JsObj {| slot_player := "Ann"; slot_seat := 1;
             slot_position := SB; slot_priority := 2 |} ∧
  ∃ p, getCurrentPlayer utgFoldedMoved preflop = JsObj p ∧
       filter (λ p, playerStatus utgFoldedMoved !! slot_player p = Some active)
         (ao_preflop (absoluteOrder utgFoldedMoved))
         !! (ai_preflop (currentActionIndex utgFoldedMoved)
               `mod` length
                 (filter
                    (λ p, playerStatus utgFoldedMoved !! slot_player p
                          = Some active)
                    (ao_preflop (absoluteOrder utgFoldedMoved)))) = Some p ∧
       p ∈ ao_preflop (absoluteOrder utgFoldedMoved) ∧
       playerStatus utgFoldedMoved !! slot_player p = Some active ∧
       playerStatus utgFoldedMoved !! slot_player p ≠ Some folded ∧
       playerStatus utgFoldedMoved !! slot_player p ≠ Some allin.
Proof.
  split_and!; [reflexivity..|].
  apply (C4_current_player utgFoldedMoved preflop).
  exists {| slot_player := "Dee"; slot_seat := 7;
            slot_position := BTN; slot_priority := 1 |}.
  split; by_compute.
Defined.

Lemma C5_witness :
  isBettingRoundComplete headsUpFolded flop [] = true ∧
  length (filter (λ e, oe_canAct e = true) (getActionOrder headsUpFolded flop)) =
    length (activeSlots headsUpFolded flop).
Proof.
  apply (C5_single_active headsUpFolded flop []). vm_compute. lia.
Defined.

Lemma collectPlayerActions_snoc (actions : list ActionRecord) (a : ActionRecord) :
  collectPlayerActions (actions ++ [a]) =
    match ar_player a with
    | Some p => if truthy (ar_player a)
                then jsSet (collectPlayerActions actions) p (ar_action a)
                else collectPlayerActions actions
    | None => collectPlayerActions actions
    end.
Proof. unfold collectPlayerActions. by rewrite foldl_app. Qed.







(** The same divergence with a record that names a player but carries no
    action: the player has a record, yet the round is not complete. *)
Example record_without_action :
  let actions := [ {| ar_player := Some "Ann"; ar_action := None |};
                   act "Bob" "check" ] in
  hasEntry actions "Ann" ∧ hasEntry actions "Bob" ∧
  isBettingRoundComplete (started table2 1) preflop actions = false.
Proof.
  split_and!.
  - exists {| ar_player := Some "Ann"; ar_action := None |}.
    split; [by_compute|done].
  - exists (act "Bob" "check"). split; [by_compute|done].
  - by vm_compute.
Qed.

(** The divergence in the other direction: a player whose name is a
    property name of [Object.prototype] counts as having acted without any
    record, because [playerActions] is a plain object. *)
Example inherited_name_counts_as_acted :
  let actions := [act "Bob" "check"] in
  length (activeSlots (started tableProto 1) preflop) = 2 ∧
  ¬ hasEntry actions "constructor" ∧
  isBettingRoundComplete (started tableProto 1) preflop actions = true.
Proof.
  split_and!; [by vm_compute| |by vm_compute].
  intros (a & Ha & Hp). apply list_elem_of_singleton in Ha as ->. done.
Qed.



(** ** End of hand *)

(** C9.  After [endHand] the hand number is cleared, both tables and the
    status registry are empty, every cursor is 0, and on every street the
    queries return [null] or the empty sequence; [initializeHand] then behaves
    exactly as on a freshly constructed manager, storing the tables the two
    builders return. *)
Theorem C9_end_hand (this : Manager) :
  let ended := endHand this in
  handNumber ended = None ∧
  absoluteOrder ended = emptyOrder ∧
  playerStatus ended = ∅ ∧
  (∀ street,
     getIndex (currentActionIndex ended) street = 0 ∧
     getCurrentPlayer ended street = JsNull ∧
     getActionOrder ended street = [] ∧
     (moveToNextPlayer ended street).2 = JsNull ∧
     (advanceToStreet ended street).2 = JsNull) ∧
  (∀ players button hand,
     initializeHand ended players button hand =
       initializeHand newManager players button hand) ∧
  (∀ players button hand pre post,
     createPreflopOrder players button = Ret pre →
     createPostflopOrder players button = Ret post →
     ∃ this', initializeHand ended players button hand = Normal this' ∧
              handNumber this' = Some hand ∧
              ao_preflop (absoluteOrder this') = pre ∧
              ao_postflop (absoluteOrder this') = post ∧
              currentActionIndex this' = zeroIndex).
Proof.
  intros ended. split_and!; [done..| | |].
  - intros street. by destruct street.
  - done.
  - intros players button hand pre post Hpre Hpost.
    eexists. split; [by apply initializeHand_Normal|done].
Qed.

Lemma C9_witness :
  ∃ this', initializeHand (endHand utgFolded) table2 1 "h2" = Normal this' ∧
           handNumber this' = Some "h2" ∧
           ao_preflop (absoluteOrder this') =
             [ {| slot_player := "Bob"; slot_seat := 2;
                  slot_position := SB; slot_priority := 0 |};
               {| slot_player := "Ann"; slot_seat := 1;
                  slot_position := BB; slot_priority := 1 |} ] ∧
           ao_postflop (absoluteOrder this') =
             [ {| slot_player := "Bob"; slot_seat := 2;
                  slot_position := SB; slot_priority := 0 |};
               {| slot_player := "Ann"; slot_seat := 1;
                  slot_position := BB; slot_priority := 1 |} ] ∧
           currentActionIndex this' = zeroIndex.
Proof.
  apply (C9_end_hand utgFolded); by vm_compute.
Defined.

(** ** Several players entered for one seat *)

Lemma mod_shift_inj (N d k k' : nat) :
  k < N → k' < N → (k + d) `mod` N = (k' + d) `mod` N → k = k'.
Proof.
  intros Hk Hk'.
  rewrite <- (Nat.Div0.add_mod_idemp_r k d), <- (Nat.Div0.add_mod_idemp_r k' d).
  pose proof (Nat.mod_upper_bound d N) as Hd.
  generalize dependent (d `mod` N). intros d' Hd.
  destruct (decide (k + d' < N)), (decide (k' + d' < N));
    rewrite ?(Nat.mod_small (k + d')), ?(Nat.mod_small (k' + d')),
            ?(mod_wrap (k + d')), ?(mod_wrap (k' + d')) by lia; lia.
Qed.

(** A table whose entry [k] is the slot of relative index [(k + c) mod N]
    holds every occupied seat exactly once, with the seat's holder. *)
Lemma table_one_slot_per_seat (players : list Player) (buttonSeat : Z)
    (b c : nat) (table : list ActionSlot) :
  let occ := occupiedSeats players in
  let N := length occ in
  indexOf occ buttonSeat = Some b →
  length table = N →
  (∀ k, k < N → ∃ position priority,
     table !! k = resolvedSlot players b ((k + c) `mod` N) position priority) →
  slot_seat <$> table ≡ₚ occ ∧
  ∀ slot, slot ∈ table →
    ∃ p, seatHolder players (slot_seat slot) = Some p ∧ slot_player slot = name p.
Proof.
  intros occ N Hb Hlen Htable.
  assert (∀ k slot, table !! k = Some slot →
            occ !! ((k + (c + b + 1)) `mod` N) = Some (slot_seat slot) ∧
            ∃ p, seatHolder players (slot_seat slot) = Some p ∧
                 slot_player slot = name p) as Hslot.
  { intros k slot Hk. pose proof (lookup_lt_Some _ _ _ Hk) as Hlt.
    destruct (Htable k) as (position & priority & Hres); [lia|].
    rewrite Hk in Hres. symmetry in Hres.
    apply resolvedSlot_fields in Hres as (Hseat & Hholder & _).
    split; [|done]. unfold rotatedSeat in Hseat. fold occ N in Hseat.
    rewrite <- Hseat. f_equal.
    replace (b + (k + c) `mod` N + 1) with ((k + c) `mod` N + (b + 1)) by lia.
    rewrite Nat.Div0.add_mod_idemp_l. f_equal. lia. }
  split.
  - apply submseteq_length_Permutation; [|by rewrite length_fmap, Hlen].
    apply NoDup_submseteq.
    + apply NoDup_alt. intros i j s Hi Hj.
      apply list_lookup_fmap_Some in Hi as (si & -> & Hi).
      apply list_lookup_fmap_Some in Hj as (sj & Heq & Hj).
      pose proof (lookup_lt_Some _ _ _ Hi). pose proof (lookup_lt_Some _ _ _ Hj).
      apply Hslot in Hi as [Hi _]. apply Hslot in Hj as [Hj _].
      rewrite <- Heq in Hj.
      pose proof (NoDup_sortedKeys (buildSeatMap players)) as Hnd.
      rewrite NoDup_alt in Hnd. specialize (Hnd _ _ _ Hi Hj).
      apply mod_shift_inj in Hnd; lia.
    + intros s (slot & -> & Hin)%list_elem_of_fmap.
      apply list_elem_of_lookup in Hin as [k Hk].
      apply Hslot in Hk as [Hk _]. apply list_elem_of_lookup. eauto.
  - intros slot [k Hk]%list_elem_of_lookup. by apply Hslot in Hk as [_ ?].
Qed.

Lemma registerActive_snoc (players : list Player) (p : Player) :
  registerActive (players ++ [p]) = jsSet (registerActive players) (name p) active.
Proof. unfold registerActive. by rewrite foldl_app. Qed.

(** The registry never gets an own property ['__proto__']. *)
Lemma registerActive_proto (players : list Player) :
  registerActive players !! "__proto__"%string = None.
Proof.
  induction players as [|p players IH] using rev_ind; [done|].
  rewrite registerActive_snoc. by apply jsSet_proto.
Qed.

(** Every player of the list is registered as active, except one called
    ['__proto__'], and nobody else is registered. *)
Lemma registry_lookup (players : list Player) (n : string) :
  registerActive players !! n =
    if decide (n ∈ name <$> players ∧ n ≠ "__proto__"%string)
    then Some active else None.
Proof.
  destruct (decide (n = "__proto__"%string)) as [->|Hproto].
  { rewrite decide_False by (by intros [_ ?]). apply registerActive_proto. }
  induction players as [|p players IH] using rev_ind.
  { rewrite decide_False; [done|]. intros [Hin _]. by apply elem_of_nil in Hin. }
  rewrite registerActive_snoc, jsSet_lookup_ne, fmap_app by done. simpl.
  destruct (decide (name p = n)) as [<-|Hne].
  - rewrite decide_True; [done|]. split; [|done].
    apply elem_of_app. right. left.
  - rewrite IH. case_decide as Hin.
    + rewrite decide_True; [done|]. split; [|done].
      apply elem_of_app. left. by destruct Hin.
    + rewrite decide_False; [done|].
      intros [[?|Hn%list_elem_of_singleton]%elem_of_app _]; [|congruence].
      apply Hin. by split.
Qed.

Lemma duplicate_seat_shrinks (players : list Player) :
  hasDuplicateSeat players →
  length (occupiedSeats players) < length players.
Proof.
  intros (i & j & p & q & Hij & Hp & Hq & Hseat).
  rewrite length_occupiedSeats.
  assert (remove_dups (seat <$> players) ⊆+ seat <$> players) as Hsub.
  { apply NoDup_submseteq; [apply NoDup_remove_dups|].
    intros s. by rewrite elem_of_remove_dups. }
  pose proof (submseteq_length _ _ Hsub) as Hle. rewrite length_fmap in Hle.
  destruct (decide (length (remove_dups (seat <$> players)) = length players))
    as [Heq|]; [|lia].
  exfalso. apply submseteq_length_Permutation in Hsub;
    [|rewrite length_fmap; lia].
  assert (NoDup (seat <$> players)) as Hnd
    by (rewrite <- Hsub; apply NoDup_remove_dups).
  rewrite NoDup_alt in Hnd. apply Hij, (Hnd i j (seat p)).
  - by rewrite list_lookup_fmap, Hp.
  - by rewrite list_lookup_fmap, Hq, Hseat.
Qed.

Lemma hasDuplicateSeat_tableDup : hasDuplicateSeat tableDup.
Proof. exists 0, 1, (mkPlayer "Ann" 1), (mkPlayer "Bob" 1). by split_and!. Qed.

(** C10 as stated fails when the button seat is not an occupied seat: the
    tables are empty although the list has two distinct seats. *)
Lemma C10_counterexample :
  ¬ (∀ (this : Manager) (players : list Player) (buttonSeat : Z) (hand : string),
       hasDuplicateSeat players →
       ∃ this',
         initializeHand this players buttonSeat hand = Normal this' ∧
         length (ao_preflop (absoluteOrder this')) =
           length (remove_dups (seat <$> players)) ∧
         length (ao_postflop (absoluteOrder this')) =
           length (remove_dups (seat <$> players))).
Proof.
  intros H.
  destruct (H newManager tableDup 9%Z "h1" hasDuplicateSeat_tableDup)
    as (this' & Hinit & Hpre & _).
  vm_compute in Hinit. injection Hinit as <-. by vm_compute in Hpre.
Qed.

(** With every player entered for the same seat and that seat as button,
    [createPreflopOrder] reads [positions[1]], which does not exist. *)
Example single_seat_throws :
  createPreflopOrder [mkPlayer "Ann" 1; mkPlayer "Bob" 1] 1 = Throw TypeError.
Proof. by vm_compute. Qed.

(** C10 (amended).  When the player list has [N >= 2] distinct seats and the
    button is one of them, [initializeHand] returns; each table has exactly
    one slot per distinct seat (so [N] slots, fewer than there are players
    when two players share a seat), the slot of a seat carrying the name of
    the last player entered for it; every player of the list is active in
    the registry, except that a player called ['__proto__'] is not
    registered; and a player whose name no seat ends up with is in neither
    table. *)
Theorem C10_duplicate_seats (this : Manager) (players : list Player)
    (buttonSeat : Z) (hand : string) :
  let N := length (occupiedSeats players) in
  2 ≤ N →
  buttonSeat ∈ occupiedSeats players →
  ∃ this',
    initializeHand this players buttonSeat hand = Normal this' ∧
    N = length (remove_dups (seat <$> players)) ∧
    (hasDuplicateSeat players → N < length players) ∧
    (∀ table,
       table = ao_preflop (absoluteOrder this') ∨
       table = ao_postflop (absoluteOrder this') →
       length table = N ∧
       slot_seat <$> table ≡ₚ remove_dups (seat <$> players) ∧
       (∀ slot, slot ∈ table →
          ∃ p, seatHolder players (slot_seat slot) = Some p ∧
               slot_player slot = name p) ∧
       (∀ p, p ∈ players →
          (∀ s q, seatHolder players s = Some q → name q ≠ name p) →
          name p ∉ slot_player <$> table)) ∧
    (∀ p, p ∈ players → name p ≠ "__proto__"%string →
       playerStatus this' !! name p = Some active) ∧
    playerStatus this' !! "__proto__"%string = None.
Proof.
  intros N HN Hin.
  destruct (indexOf_elem_of _ _ Hin) as [b Hb].
  destruct (createPreflopOrder_spec players buttonSeat b Hb HN)
    as (pre & Hpre & Hlen1 & Hmid & Hsb & Hbb).
  destruct (createPostflopOrder_spec players buttonSeat b Hb)
    as (post & Hpost & Hlen2 & Hall).
  fold N in Hlen1, Hmid, Hsb, Hbb, Hlen2, Hall.
  eexists. split; [by apply initializeHand_Normal|]. simpl.
  split_and!.
  - apply length_occupiedSeats.
  - apply duplicate_seat_shrinks.
  - assert (∀ table c, length table = N →
      (∀ k, k < N → ∃ position priority,
         table !! k = resolvedSlot players b ((k + c) `mod` N) position priority) →
      length table = N ∧
      slot_seat <$> table ≡ₚ remove_dups (seat <$> players) ∧
      (∀ slot, slot ∈ table →
         ∃ p, seatHolder players (slot_seat slot) = Some p ∧
              slot_player slot = name p) ∧
      (∀ p, p ∈ players →
         (∀ s q, seatHolder players s = Some q → name q ≠ name p) →
         name p ∉ slot_player <$> table)) as Htable.
    { intros table c Hlen Hk.
      destruct (table_one_slot_per_seat players buttonSeat b c table Hb Hlen Hk)
        as [Hperm Hholder].
      split_and!; [done| |done|].
      - by rewrite Hperm, occupiedSeats_distinct.
      - intros p Hp Hname (slot & Heq & Hslot)%list_elem_of_fmap.
        destruct (Hholder slot Hslot) as (q & Hq & Hnq).
        apply (Hname _ _ Hq). congruence. }
    intros table [->| ->].
    + apply (Htable pre 2 Hlen1). intros k Hk.
      destruct (decide (k < N - 2)); [|destruct (decide (k = N - 2)) as [->|]].
      * rewrite Nat.mod_small by lia. specialize (Hmid (k + 2)).
        replace (k + 2 - 2) with k in Hmid by lia. rewrite Hmid by lia. eauto.
      * rewrite mod_wrap by lia. replace (N - 2 + 2 - N) with 0 by lia. eauto.
      * replace k with (N - 1) by lia. rewrite mod_wrap by lia.
        replace (N - 1 + 2 - N) with 1 by lia. eauto.
    + apply (Htable post 0 Hlen2). intros k Hk.
      rewrite Nat.add_0_r, Nat.mod_small by lia. rewrite Hall by done. eauto.
  - intros p Hp Hname. rewrite registry_lookup, decide_True; [done|].
    split; [by apply list_elem_of_fmap_2|done].
  - apply registerActive_proto.
Qed.

Lemma C10_witness :
  ∃ this',
    initializeHand newManager tableDup 2 "h1" = Normal this' ∧
    2 = length (remove_dups (seat <$> tableDup)) ∧
    (hasDuplicateSeat tableDup → 2 < length tableDup) ∧
    (∀ table,
       table = ao_preflop (absoluteOrder this') ∨
       table = ao_postflop (absoluteOrder this') →
       length table = 2 ∧
       slot_seat <$> table ≡ₚ remove_dups (seat <$> tableDup) ∧
       (∀ slot, slot ∈ table →
          ∃ p, seatHolder tableDup (slot_seat slot) = Some p ∧
               slot_player slot = name p) ∧
       (∀ p, p ∈ tableDup →
          (∀ s q, seatHolder tableDup s = Some q → name q ≠ name p) →
          name p ∉ slot_player <$> table)) ∧
    (∀ p, p ∈ tableDup → name p ≠ "__proto__"%string →
       playerStatus this' !! name p = Some active) ∧
    playerStatus this' !! "__proto__"%string = None.
Proof.
  apply (C10_duplicate_seats newManager tableDup 2 "h1").
  - vm_compute. lia.
  - by_compute.
Defined.

(** The player entered first for seat 1 is active in the registry and has a
    slot in neither table. *)
Example overwritten_player_is_active_but_absent :
  let this := started tableDup 2 in
  playerStatus this !! "Ann" = Some active ∧
  ("Ann" ∉ slot_player <$> ao_preflop (absoluteOrder this)) ∧
  ("Ann" ∉ slot_player <$> ao_postflop (absoluteOrder this)) ∧
  slot_player <$> ao_postflop (absoluteOrder this) = ["Bob"; "Cyd"].
Proof. split_and!; by_compute. Qed.

(** A player called ['__proto__'] gets a slot in both tables but no entry in
    the registry: the write reaches the setter of [Object.prototype], which
    ignores a string. *)
Example proto_player_is_not_registered :
  let this := started tableUnderscore 2 in
  playerStatus this !! "__proto__" = None ∧
  playerStatus this !! "Bob" = Some active ∧
  slot_player <$> ao_postflop (absoluteOrder this) = ["__proto__"; "Bob"] ∧
  slot_player <$> activeSlots this flop = ["Bob"].
Proof. split_and!; by_compute. Qed.

(** ** The scenario of the specification

    Four players at seats 1, 3, 5, 7 with the button at seat 7. *)

Example scenario_preflop :
  createPreflopOrder table4 7 =
    Ret [ {| slot_player := "Cyd"; slot_seat := 5;
             slot_position := UTG; slot_priority := 0 |};
          {| slot_player := "Dee"; slot_seat := 7;
             slot_position := BTN; slot_priority := 1 |};
          {| slot_player := "Ann"; slot_seat := 1;
             slot_position := SB; slot_priority := 2 |};
          {| slot_player := "Bob"; slot_seat := 3;
             slot_position := BB; slot_priority := 3 |} ].
Proof. by vm_compute. Qed.

Example scenario_postflop :
  createPostflopOrder table4 7 =
    Ret [ {| slot_player := "Ann"; slot_seat := 1;
             slot_position := SB; slot_priority := 0 |};
          {| slot_player := "Bob"; slot_seat := 3;
             slot_position := BB; slot_priority := 1 |};
          {| slot_player := "Cyd"; slot_seat := 5;
             slot_position := UTG; slot_priority := 2 |};
          {| slot_player := "Dee"; slot_seat := 7;
             slot_position := BTN; slot_priority := 3 |} ].
Proof. by vm_compute. Qed.

(** After the player under the gun folds, the cursor 0 lands on the button,
    and no stored priority has changed. *)
Example scenario_fold :
  getCurrentPlayer utgFolded preflop =
    JsObj {| slot_player := "Dee"; slot_seat := 7;
             slot_position := BTN; slot_priority := 1 |} ∧
  absoluteOrder utgFolded = absoluteOrder (started table4 7).
Proof. by vm_compute. Qed.

Example scenario_round_complete :
  isBettingRoundComplete utgFolded preflop
    [act "Ann" "call"; act "Bob" "check"; act "Dee" "call"] = true ∧
  isBettingRoundComplete utgFolded preflop
    [act "Ann" "call"; act "Dee" "call"] = false.
Proof. by vm_compute. Qed.

(** [advanceToStreet] right after [initializeHand] resets the cursor and
    returns the first entry of the postflop table. *)
Example scenario_advance :
  advanceToStreet (started table4 7) flop =
    ( {| handNumber := Some "h1";
         buttonPosition := 7;
         absoluteOrder := absoluteOrder (started table4 7);
         currentStreet := flop;
         currentActionIndex := zeroIndex;
         playerStatus := playerStatus (started table4 7) |},
      JsObj {| slot_player := "Ann"; slot_seat := 1;
               slot_position := SB; slot_priority := 0 |} ).
Proof. by vm_compute. Qed.

(** * Further properties of the manager *)

(** ** Generic list facts *)

Lemma filter_ext_elem {A : Type} (P Q : A → Prop)
    `{!∀ x, Decision (P x)} `{!∀ x, Decision (Q x)} (l : list A) :
  (∀ x, x ∈ l → P x ↔ Q x) → filter P l = filter Q l.
Proof.
  induction l as [|x l IH]; intros Hext; [done|].
  rewrite !filter_cons, IH by (intros y Hy; apply Hext; by right).
  destruct (decide (P x)) as [HP|HP], (decide (Q x)) as [HQ|HQ]; try done.
  - destruct HQ. apply Hext; [left|done].
  - destruct HP. apply Hext; [left|done].
Qed.

Lemma rotate_nat_add_mod (base offset len : nat) :
  rotate_nat_add base offset len = (base + offset) `mod` len.
Proof.
  unfold rotate_nat_add.
  by rewrite <- Nat2Z.inj_add, <- Nat2Z.inj_mod, Nat2Z.id.
Qed.

(** ** The cursor *)

Lemma getIndex_setIndex (idx : ActionIndex) (street street' : Street) (n : nat) :
  getIndex (setIndex idx street n) street' =
    if decide (street = street') then n else getIndex idx street'.
Proof. by destruct street, street'. Qed.

Lemma activeSlots_withIndex (this : Manager) (idx : ActionIndex) (street : Street) :
  activeSlots (withIndex this idx) street = activeSlots this street.
Proof. done. Qed.

Lemma moves_state (n : nat) (this : Manager) (street : Street) :
  moves n this street =
    withIndex this
      (setIndex (currentActionIndex this) street
         (getIndex (currentActionIndex this) street + n)).
Proof.
  revert this. induction n as [|n IH]; intros this; simpl.
  - rewrite Nat.add_0_r. destruct this as [? ? ? ? idx ?]. simpl.
    unfold withIndex. simpl. f_equal. by destruct idx, street.
  - rewrite IH. unfold withIndex. simpl. f_equal.
    rewrite getIndex_setIndex, decide_True by done.
    destruct (currentActionIndex this), street; simpl; f_equal; lia.
Qed.

Lemma getCurrentPlayer_lookup (this : Manager) (street : Street) :
  0 < length (activeSlots this street) →
  JsObj <$> activeSlots this street
              !! (getIndex (currentActionIndex this) street
                    `mod` length (activeSlots this street)) =
    Some (getCurrentPlayer this street).
Proof.
  intros Hk. rewrite getCurrentPlayer_eq.
  destruct (lookup_lt_is_Some_2 (activeSlots this street)
    (getIndex (currentActionIndex this) street
       `mod` length (activeSlots this street))) as [p Hp];
    [apply Nat.mod_upper_bound; lia|].
  rewrite Hp. by destruct (activeSlots this street).
Qed.

Lemma nextPlayers_lookup (n : nat) (this : Manager) (street : Street) (j : nat) :
  j < n →
  nextPlayers n this street !! j =
    Some (getCurrentPlayer (moves (S j) this street) street).
Proof.
  revert this j. induction n as [|n IH]; intros this j Hj; [lia|].
  destruct j as [|j]; simpl; [done|]. apply IH. lia.
Qed.

Lemma length_nextPlayers (n : nat) (this : Manager) (street : Street) :
  length (nextPlayers n this street) = n.
Proof. revert this. induction n as [|n IH]; intros this; simpl; [done|]. by rewrite IH. Qed.

(** X1.  With [k >= 1] active players in the street's table and no status
    change in between, [k] successive calls of [moveToNextPlayer] return every
    active player exactly once, in table order, starting after the current
    player and wrapping around; the [k]-th call returns the player that was
    current before the first. *)
Theorem moveToNextPlayer_round_robin (this : Manager) (street : Street) :
  let actives := activeSlots this street in
  let k := length actives in
  let c := getIndex (currentActionIndex this) street in
  0 < k →
  nextPlayers k this street = JsObj <$> rotate (c + 1) actives ∧
  nextPlayers k this street ≡ₚ JsObj <$> actives ∧
  last (nextPlayers k this street) = Some (getCurrentPlayer this street) ∧
  getCurrentPlayer (moves k this street) street = getCurrentPlayer this street.
Proof.
  intros actives k c Hk.
  assert (∀ j, getCurrentPlayer (moves j this street) street =
               default JsUndefined (JsObj <$> actives !! ((c + j) `mod` k)))
    as Hcur.
  { intros j. pose proof (getCurrentPlayer_lookup (moves j this street) street) as H.
    rewrite moves_state, activeSlots_withIndex in H. simpl in H.
    rewrite getIndex_setIndex, decide_True in H by done.
    fold actives k c in H. rewrite H by done.
    by rewrite moves_state. }
  assert (nextPlayers k this street = JsObj <$> rotate (c + 1) actives) as Heq.
  { apply list_eq. intros j. destruct (decide (j < k)) as [Hj|Hj].
    - rewrite nextPlayers_lookup, Hcur, list_lookup_fmap by done.
      rewrite lookup_rotate_r, rotate_nat_add_mod by done. fold k.
      replace (c + S j) with (c + 1 + j) by lia.
      destruct (lookup_lt_is_Some_2 actives ((c + 1 + j) `mod` k)) as [p Hp];
        [apply Nat.mod_upper_bound; lia|].
      by rewrite Hp.
    - rewrite !lookup_ge_None_2; [done| |].
      + rewrite length_fmap, length_rotate. fold k. lia.
      + rewrite length_nextPlayers. lia. }
  assert (getCurrentPlayer (moves k this street) street =
          getCurrentPlayer this street) as Hperiod.
  { rewrite (Hcur k). pose proof (Hcur 0) as H0. simpl in H0. rewrite H0.
    rewrite Nat.add_0_r. replace (c + k) with (c + 1 * k) by lia.
    by rewrite Nat.Div0.mod_add. }
  split_and!; [done| | |done].
  - rewrite Heq. apply fmap_Permutation.
    unfold rotate. rewrite Permutation_app_comm. by rewrite take_drop.
  - rewrite last_lookup, length_nextPlayers.
    rewrite nextPlayers_lookup by lia.
    replace (S (Init.Nat.pred k)) with k by lia. by rewrite Hperiod.
Qed.

Lemma moveToNextPlayer_round_robin_witness :
  let actives := activeSlots utgFolded preflop in
  nextPlayers 3 utgFolded preflop = JsObj <$> rotate 1 actives ∧
  nextPlayers 3 utgFolded preflop ≡ₚ JsObj <$> actives ∧
  last (nextPlayers 3 utgFolded preflop) =
    Some (getCurrentPlayer utgFolded preflop) ∧
  getCurrentPlayer (moves 3 utgFolded preflop) preflop =
    getCurrentPlayer utgFolded preflop.
Proof.
  apply (moveToNextPlayer_round_robin utgFolded preflop). vm_compute. lia.
Defined.

(** X2.  [moveToNextPlayer(street)] changes the cursor of that street only:
    the tables, the registry, the hand number and the current street stay,
    and on every other street the cursor and the current player are as
    before (flop, turn and river share a table but not a cursor). *)
Theorem moveToNextPlayer_frame (this : Manager) (street street' : Street) :
  street ≠ street' →
  let this' := (moveToNextPlayer this street).1 in
  getIndex (currentActionIndex this') street =
    getIndex (currentActionIndex this) street + 1 ∧
  getIndex (currentActionIndex this') street' =
    getIndex (currentActionIndex this) street' ∧
  getCurrentPlayer this' street' = getCurrentPlayer this street' ∧
  absoluteOrder this' = absoluteOrder this ∧
  playerStatus this' = playerStatus this ∧
  handNumber this' = handNumber this ∧
  currentStreet this' = currentStreet this.
Proof.
  intros Hne this'. subst this'. simpl.
  rewrite !getIndex_setIndex, decide_True, decide_False by done.
  split_and!; [done..| |done|done|done|done].
  rewrite !getCurrentPlayer_eq, activeSlots_withIndex. simpl.
  by rewrite getIndex_setIndex, decide_False by done.
Qed.

Lemma moveToNextPlayer_frame_witness :
  let this' := (moveToNextPlayer utgFolded flop).1 in
  getIndex (currentActionIndex this') flop =
    getIndex (currentActionIndex utgFolded) flop + 1 ∧
  getIndex (currentActionIndex this') turn =
    getIndex (currentActionIndex utgFolded) turn ∧
  getCurrentPlayer this' turn = getCurrentPlayer utgFolded turn ∧
  absoluteOrder this' = absoluteOrder utgFolded ∧
  playerStatus this' = playerStatus utgFolded ∧
  handNumber this' = handNumber utgFolded ∧
  currentStreet this' = currentStreet utgFolded.
Proof. by apply (moveToNextPlayer_frame utgFolded flop turn). Defined.

(** ** Status changes *)

Lemma isActive_update (this : Manager) (n : string) (status : Status)
    (p : ActionSlot) :
  isActive (updatePlayerStatus this n status).1 p ↔
  if decide (slot_player p = n)
  then ¬ (n = "__proto__"%string ∧ playerStatus this !! n = None) ∧
       status = active
  else isActive this p.
Proof.
  unfold isActive. simpl. rewrite jsSet_lookup.
  destruct (decide (n = "__proto__"%string ∧ playerStatus this !! n = None))
    as [[Hn Hown]|Hn].
  - case_decide as Hp; [|done]. rewrite Hp, Hown. split; [done|]. intros [Hneg _]. by destruct Hneg.
  - case_decide as Hp.
    + rewrite decide_True by done. split; [|intros [_ ->]; done].
      intros [= ->]. done.
    + by rewrite decide_False by done.
Qed.

Lemma orderTable_update (this : Manager) (n : string) (status : Status)
    (street : Street) :
  orderTable (updatePlayerStatus this n status).1 street = orderTable this street.
Proof. by destruct street. Qed.

(** X3.  Marking a player folded or all-in removes exactly the slots of that
    name from the sequence of players who can act, on every street; the
    others keep their relative order and no stored slot changes. *)
Theorem updatePlayerStatus_removes (this : Manager) (n : string)
    (status : Status) (street : Street) :
  status ≠ active →
  let this' := (updatePlayerStatus this n status).1 in
  activeSlots this' street =
    filter (λ p, slot_player p ≠ n) (activeSlots this street) ∧
  activeSlots this' street `sublist_of` activeSlots this street ∧
  absoluteOrder this' = absoluteOrder this ∧
  (∀ p, getCurrentPlayer this' street = JsObj p → slot_player p ≠ n).
Proof.
  intros Hs this'.
  assert (activeSlots this' street =
          filter (λ p, slot_player p ≠ n) (activeSlots this street)) as Heq.
  { unfold activeSlots, this'. rewrite orderTable_update, list_filter_filter.
    apply filter_ext_elem. intros p _. rewrite isActive_update.
    case_decide; naive_solver. }
  split_and!; [done| |done|].
  - rewrite Heq. apply sublist_filter.
  - intros p Hp. rewrite getCurrentPlayer_eq in Hp.
    destruct (activeSlots this' street) as [|a l] eqn:E; [done|].
    destruct (_ !! _) as [q|] eqn:Hq; [|done]. injection Hp as ->.
    assert (p ∈ a :: l) as Hin by (apply list_elem_of_lookup; eauto).
    rewrite Heq in Hin. by apply list_elem_of_filter in Hin as [? _].
Qed.

Lemma updatePlayerStatus_removes_witness :
  let this' := (updatePlayerStatus (started table4 7) "Cyd" folded).1 in
  activeSlots this' preflop =
    filter (λ p, slot_player p ≠ "Cyd") (activeSlots (started table4 7) preflop) ∧
  activeSlots this' preflop `sublist_of` activeSlots (started table4 7) preflop ∧
  absoluteOrder this' = absoluteOrder (started table4 7) ∧
  (∀ p, getCurrentPlayer this' preflop = JsObj p → slot_player p ≠ "Cyd").
Proof. by apply (updatePlayerStatus_removes (started table4 7) "Cyd" folded preflop). Defined.

(** X4.  A status update for a name that no slot of the street's table
    carries is invisible to the turn queries: the action order, the current
    player and the betting-round test are unchanged.  The name is entered in
    the registry all the same, except that for the name ['__proto__'], when
    the registry has no own property of that name, the write is ignored and
    the registry stays as it is. *)
Theorem updatePlayerStatus_unknown_name (this : Manager) (n : string)
    (status : Status) (street : Street) :
  n ∉ tableNames this street →
  let this' := (updatePlayerStatus this n status).1 in
  (n ≠ "__proto__"%string ∨ is_Some (playerStatus this !! n) →
   playerStatus this' !! n = Some status) ∧
  (n = "__proto__"%string → playerStatus this !! n = None →
   playerStatus this' = playerStatus this) ∧
  getActionOrder this' street = getActionOrder this street ∧
  getCurrentPlayer this' street = getCurrentPlayer this street ∧
  ∀ actions, isBettingRoundComplete this' street actions =
             isBettingRoundComplete this street actions.
Proof.
  intros Hn this'.
  assert (∀ p, p ∈ orderTable this street →
            playerStatus this' !! slot_player p =
            playerStatus this !! slot_player p) as Hsame.
  { intros p Hp. simpl. rewrite jsSet_lookup.
    case_decide; [done|]. rewrite decide_False; [done|]. intros ->.
    apply Hn. by apply list_elem_of_fmap_2. }
  assert (activeSlots this' street = activeSlots this street) as Hact.
  { unfold activeSlots, this'. rewrite orderTable_update.
    apply filter_ext_elem. intros p Hp. unfold isActive.
    by rewrite <- (Hsame p Hp). }
  split_and!.
  - intros Hcase. simpl. rewrite jsSet_lookup, decide_False, decide_True; [done..|].
    intros [Hproto Hown]. destruct Hcase as [?|[? Hsome]]; [done|congruence].
  - intros Hproto Hown. simpl. unfold jsSet. by rewrite decide_True.
  - unfold getActionOrder, this'. rewrite orderTable_update.
    apply list_fmap_ext. intros i p Hp.
    assert (p ∈ orderTable this street) as Hin
      by (apply list_elem_of_lookup; eauto).
    f_equal; [by apply Hsame|].
    apply bool_decide_ext. fold this'. by rewrite (Hsame p Hin).
  - by rewrite !getCurrentPlayer_eq, Hact.
  - intros actions. by rewrite !isBettingRoundComplete_eq, Hact.
Qed.

Lemma updatePlayerStatus_unknown_name_witness :
  let this' := (updatePlayerStatus (started table4 7) "Zed" active).1 in
  ("Zed" ≠ "__proto__" ∨ is_Some (playerStatus (started table4 7) !! "Zed") →
   playerStatus this' !! "Zed" = Some active) ∧
  ("Zed" = "__proto__" → playerStatus (started table4 7) !! "Zed" = None →
   playerStatus this' = playerStatus (started table4 7)) ∧
  getActionOrder this' flop = getActionOrder (started table4 7) flop ∧
  getCurrentPlayer this' flop = getCurrentPlayer (started table4 7) flop ∧
  ∀ actions, isBettingRoundComplete this' flop actions =
             isBettingRoundComplete (started table4 7) flop actions.
Proof.
  apply (updatePlayerStatus_unknown_name (started table4 7) "Zed" active flop).
  by_compute.
Defined.

Lemma forallb_elem_of {A : Type} (f : A → bool) (l : list A) :
  forallb f l = true ↔ ∀ x, x ∈ l → f x = true.
Proof.
  rewrite <- Is_true_true, forallb_True, Forall_forall.
  by setoid_rewrite Is_true_true.
Qed.

Lemma filter_fmap_list {A B : Type} (f : A → B) (P : B → Prop)
    `{!∀ y, Decision (P y)} (l : list A) :
  filter P (f <$> l) = f <$> filter (λ x, P (f x)) l.
Proof.
  induction l as [|x l IH]; [done|].
  rewrite fmap_cons, !filter_cons, IH. by case_decide.
Qed.

Lemma registryNames_update (this : Manager) (n : string) (status : Status) :
  n ∈ registryNames this →
  registryNames (updatePlayerStatus this n status).1 ≡ₚ registryNames this.
Proof.
  intros Hn. unfold registryNames. simpl.
  assert (is_Some (playerStatus this !! n)) as Hsome.
  { apply list_elem_of_fmap in Hn as ([k v] & -> & Hkv).
    apply elem_of_map_to_list in Hkv. by eexists. }
  rewrite jsSet_own by done.
  apply NoDup_Permutation; [apply NoDup_fst_map_to_list..|].
  intros m. rewrite !list_elem_of_fmap. split.
  - intros ([k v] & -> & Hkv). apply elem_of_map_to_list in Hkv. simpl.
    destruct (decide (n = k)) as [<-|Hne].
    + destruct Hsome as [w Hw]. exists (n, w). split; [done|].
      by apply elem_of_map_to_list.
    + rewrite lookup_insert_ne in Hkv by done. exists (k, v). split; [done|].
      by apply elem_of_map_to_list.
  - intros ([k v] & -> & Hkv). apply elem_of_map_to_list in Hkv. simpl.
    destruct (decide (n = k)) as [<-|Hne].
    + exists (n, status). split; [done|].
      apply elem_of_map_to_list. apply lookup_insert_eq.
    + exists (k, v). split; [done|].
      apply elem_of_map_to_list. by rewrite lookup_insert_ne.
Qed.

Lemma registry_count (m : gmap string Status) :
  length (filter (λ kv : string * Status, kv.2 = active) (map_to_list m)) =
  length (filter (λ n, m !! n = Some active) (map_to_list m).*1).
Proof.
  rewrite filter_fmap_list, length_fmap. f_equal.
  apply filter_ext_elem. intros [k v] Hkv. simpl.
  apply elem_of_map_to_list in Hkv. rewrite Hkv. split; congruence.
Qed.

(** X5.  When the street's table has exactly one slot per registered name
    and the updated name is one of them, the number [updatePlayerStatus]
    returns is the number of players of the table who can still act, and the
    table still matches the registry afterwards. *)
Theorem updatePlayerStatus_count (this : Manager) (n : string)
    (status : Status) (street : Street) :
  registryMatchesTable this street →
  n ∈ tableNames this street →
  let r := updatePlayerStatus this n status in
  r.2 = length (activeSlots r.1 street) ∧
  registryMatchesTable r.1 street.
Proof.
  intros Hmatch Hn r.
  assert (registryMatchesTable r.1 street) as Hmatch'.
  { unfold registryMatchesTable, tableNames, r.
    rewrite orderTable_update, registryNames_update; [done|].
    by rewrite <- Hmatch. }
  split; [|done].
  unfold r at 1. unfold updatePlayerStatus. cbv zeta. cbn [snd].
  rewrite registry_count.
  transitivity (length (filter (λ m, playerStatus r.1 !! m = Some active)
                          (tableNames r.1 street))).
  - by rewrite Hmatch'.
  - unfold tableNames. by rewrite filter_fmap_list, length_fmap.
Qed.

(** ** The betting round under status changes and further actions *)

Lemma activeSlots_update_inactive (this : Manager) (n : string)
    (status : Status) (street : Street) :
  status ≠ active →
  activeSlots (updatePlayerStatus this n status).1 street =
    filter (λ p, slot_player p ≠ n) (activeSlots this street).
Proof.
  intros Hs. unfold activeSlots. rewrite orderTable_update, list_filter_filter.
  apply filter_ext_elem. intros p _. rewrite isActive_update.
  case_decide; naive_solver.
Qed.

(** X6.  A betting round that is complete stays complete when a player is
    marked folded or all-in. *)
Theorem fold_preserves_completion (this : Manager) (n : string)
    (status : Status) (street : Street) (actions : list ActionRecord) :
  status ≠ active →
  isBettingRoundComplete this street actions = true →
  isBettingRoundComplete (updatePlayerStatus this n status).1 street actions
    = true.
Proof.
  intros Hs Hdone. rewrite isBettingRoundComplete_eq in *.
  rewrite activeSlots_update_inactive by done.
  pose proof (length_filter (λ p, slot_player p ≠ n) (activeSlots this street)).
  destruct (decide (length (filter (λ p, slot_player p ≠ n)
                              (activeSlots this street)) ≤ 1)); [done|].
  rewrite decide_False in Hdone by lia.
  rewrite forallb_elem_of in *. intros p [_ Hp]%list_elem_of_filter.
  by apply Hdone.
Qed.

Lemma hasAction_more (actions more : list ActionRecord) (p : string) :
  Forall (λ a, is_Some (ar_action a)) more →
  hasAction (collectPlayerActions actions) p = true →
  hasAction (collectPlayerActions (actions ++ more)) p = true.
Proof.
  intros Hmore Hp. induction more as [|a more IH] using rev_ind.
  { by rewrite app_nil_r. }
  rewrite Forall_app, Forall_singleton in Hmore. destruct Hmore as [Hmore Ha].
  rewrite app_assoc, collectPlayerActions_snoc.
  destruct (ar_player a) as [q|]; [|by apply IH].
  destruct (truthy (Some q)); [|by apply IH].
  unfold hasAction. rewrite jsSet_lookup.
  case_decide; [by apply IH|].
  destruct (decide (q = p)) as [->|Hne]; [|by apply IH].
  by destruct Ha as [? ->].
Qed.

(** X7.  A betting round that is complete stays complete when further
    records are appended to [actions], provided each of them carries an
    action. *)
Theorem more_actions_preserve_completion (this : Manager) (street : Street)
    (actions more : list ActionRecord) :
  Forall (λ a, is_Some (ar_action a)) more →
  isBettingRoundComplete this street actions = true →
  isBettingRoundComplete this street (actions ++ more) = true.
Proof.
  intros Hmore Hdone. rewrite isBettingRoundComplete_eq in *.
  destruct (decide (length (activeSlots this street) ≤ 1)); [done|].
  rewrite forallb_elem_of in *. intros p Hp.
  apply hasAction_more; [done|]. by apply Hdone.
Qed.

(** ** Street transitions *)

(** X8.  [advanceToStreet(s)] returns the first player of the street's table
    who can act ([null] when nobody can), sets the cursor of [s] to 0 and
    leaves the other cursors, the tables and every status as they are; flop,
    turn and river give the same first player. *)
Theorem advanceToStreet_first_active (this : Manager) (street : Street) :
  let r := advanceToStreet this street in
  r.2 = match head (activeSlots this street) with
        | Some p => JsObj p
        | None => JsNull
        end ∧
  currentStreet r.1 = street ∧
  getIndex (currentActionIndex r.1) street = 0 ∧
  (∀ street', street' ≠ street →
     getIndex (currentActionIndex r.1) street' =
       getIndex (currentActionIndex this) street') ∧
  playerStatus r.1 = playerStatus this ∧
  absoluteOrder r.1 = absoluteOrder this ∧
  (∀ street', street ≠ preflop → street' ≠ preflop →
     (advanceToStreet this street').2 = r.2).
Proof.
  assert (∀ s, (advanceToStreet this s).2 =
               match head (activeSlots this s) with
               | Some p => JsObj p
               | None => JsNull
               end) as Hfirst.
  { intros s. unfold advanceToStreet. cbv zeta. cbn [snd].
    rewrite getCurrentPlayer_eq.
    change (activeSlots _ s) with (activeSlots this s). cbn [currentActionIndex].
    rewrite getIndex_setIndex, decide_True by done.
    destruct (activeSlots this s) as [|p l]; [done|].
    rewrite Nat.Div0.mod_0_l. done. }
  intros r. split_and!; [apply Hfirst|done| | |done|done|].
  - unfold r. simpl. by rewrite getIndex_setIndex, decide_True.
  - intros street' Hne. unfold r. simpl.
    by rewrite getIndex_setIndex, decide_False.
  - intros street' Hs Hs'. unfold r. rewrite !Hfirst.
    by destruct street, street'.
Qed.

Lemma updatePlayerStatus_count_witness :
  let r := updatePlayerStatus (started table4 7) "Bob" allin in
  r.2 = length (activeSlots r.1 preflop) ∧
  registryMatchesTable r.1 preflop.
Proof.
  apply (updatePlayerStatus_count (started table4 7) "Bob" allin preflop).
  - unfold registryMatchesTable. by_compute.
  - by_compute.
Defined.

Lemma fold_preserves_completion_witness :
  isBettingRoundComplete (updatePlayerStatus utgFolded "Dee" folded).1 preflop
    [act "Ann" "call"; act "Bob" "check"; act "Dee" "call"] = true.
Proof.
  apply (fold_preserves_completion utgFolded "Dee" folded preflop); by vm_compute.
Defined.

Lemma more_actions_preserve_completion_witness :
  isBettingRoundComplete utgFolded preflop
    ([act "Ann" "call"; act "Bob" "check"; act "Dee" "call"]
     ++ [act "Ann" "raise"]) = true.
Proof.
  apply (more_actions_preserve_completion utgFolded preflop).
  - repeat constructor; by eexists.
  - by vm_compute.
Defined.

Lemma advanceToStreet_first_active_witness :
  (advanceToStreet utgFolded turn).2 = (advanceToStreet utgFolded flop).2.
Proof.
  by apply (advanceToStreet_first_active utgFolded flop).
Defined.

(** ** The two tables side by side *)

(** Both builders, on a list with at least two distinct seats and a valid
    button: entry [k] of the postflop table is the slot of relative index
    [k], entry [k] of the preflop table the slot of relative index
    [(k + 2) mod N]. *)
Lemma built_tables (players : list Player) (button : Z) :
  2 ≤ length (occupiedSeats players) →
  button ∈ occupiedSeats players →
  ∃ b pre post,
    indexOf (occupiedSeats players) button = Some b ∧
    createPreflopOrder players button = Ret pre ∧
    createPostflopOrder players button = Ret post ∧
    length pre = length (occupiedSeats players) ∧
    length post = length (occupiedSeats players) ∧
    (∀ k, k < length (occupiedSeats players) →
       pre !! k =
         resolvedSlot players b ((k + 2) `mod` length (occupiedSeats players))
           (specPosition (length (occupiedSeats players))
              ((k + 2) `mod` length (occupiedSeats players))) k) ∧
    (∀ k, k < length (occupiedSeats players) →
       post !! k =
         resolvedSlot players b k
           (specPosition (length (occupiedSeats players)) k) k).
Proof.
  intros HN Hin. set (N := length (occupiedSeats players)) in *.
  destruct (indexOf_elem_of _ _ Hin) as [b Hb].
  destruct (createPreflopOrder_spec players button b Hb HN)
    as (pre & Hpre & Hlen1 & Hmid & Hsb & Hbb).
  destruct (createPostflopOrder_spec players button b Hb)
    as (post & Hpost & Hlen2 & Hall).
  fold N in Hlen1, Hmid, Hsb, Hbb, Hlen2, Hall.
  exists b, pre, post. split_and!; [done..| |].
  - intros k Hk.
    destruct (decide (k < N - 2)); [|destruct (decide (k = N - 2)) as [->|]].
    + rewrite Nat.mod_small by lia. specialize (Hmid (k + 2)).
      replace (k + 2 - 2) with k in Hmid by lia.
      by rewrite Hmid, preflopPosition_spec by lia.
    + rewrite mod_wrap by lia. replace (N - 2 + 2 - N) with 0 by lia. done.
    + replace k with (N - 1) by lia. rewrite mod_wrap by lia.
      replace (N - 1 + 2 - N) with 1 by lia. done.
  - intros k Hk. by rewrite Hall, postflopPosition_spec.
Qed.

Lemma resolvedSlot_renumber (players : list Player) (b i : nat)
    (position : PositionLabel) (j k : nat) :
  (λ p, {| slot_player := slot_player p; slot_seat := slot_seat p;
           slot_position := slot_position p; slot_priority := k |})
    <$> resolvedSlot players b i position j =
  resolvedSlot players b i position k.
Proof.
  unfold resolvedSlot. destruct (rotatedSeat _ _ _) as [s|]; [|done]. simpl.
  by destruct (seatHolder players s).
Qed.

(** X9.  The preflop table is the postflop table rotated left by two
    places (the slots of the two blinds moved to the end), with the priorities
    rewritten to the new positions; players, seats and labels are the same
    slot by slot. *)
Theorem preflop_is_rotated_postflop (players : list Player) (button : Z) :
  2 ≤ length (occupiedSeats players) →
  button ∈ occupiedSeats players →
  ∃ pre post,
    createPreflopOrder players button = Ret pre ∧
    createPostflopOrder players button = Ret post ∧
    pre = renumber (rotate 2 post) ∧
    slot_seat <$> pre ≡ₚ slot_seat <$> post ∧
    slot_player <$> pre ≡ₚ slot_player <$> post.
Proof.
  intros HN Hin.
  destruct (built_tables players button HN Hin)
    as (b & pre & post & Hb & Hpre & Hpost & Hlen1 & Hlen2 & Hk1 & Hk2).
  set (N := length (occupiedSeats players)) in *.
  assert (pre = renumber (rotate 2 post)) as Heq.
  { apply list_eq. intros k. unfold renumber. rewrite list_lookup_imap.
    destruct (decide (k < N)) as [Hk|Hk].
    - rewrite lookup_rotate_r, rotate_nat_add_mod, Hlen2 by lia.
      replace (2 + k) with (k + 2) by lia.
      rewrite Hk1, Hk2 by (done || apply Nat.mod_upper_bound; lia).
      by rewrite resolvedSlot_renumber.
    - rewrite !lookup_ge_None_2; [done| |lia].
      rewrite length_rotate. lia. }
  exists pre, post. split_and!; [done..| |].
  - rewrite Heq. unfold renumber. rewrite fmap_imap.
    rewrite (imap_ext _ (const slot_seat)) by done.
    rewrite imap_const. apply fmap_Permutation.
    unfold rotate. by rewrite Permutation_app_comm, take_drop.
  - rewrite Heq. unfold renumber. rewrite fmap_imap.
    rewrite (imap_ext _ (const slot_player)) by done.
    rewrite imap_const. apply fmap_Permutation.
    unfold rotate. by rewrite Permutation_app_comm, take_drop.
Qed.

Lemma preflop_is_rotated_postflop_witness :
  ∃ pre post,
    createPreflopOrder table4 7 = Ret pre ∧
    createPostflopOrder table4 7 = Ret post ∧
    pre = renumber (rotate 2 post) ∧
    slot_seat <$> pre ≡ₚ slot_seat <$> post ∧
    slot_player <$> pre ≡ₚ slot_player <$> post.
Proof.
  apply (preflop_is_rotated_postflop table4 7).
  - vm_compute. lia.
  - by_compute.
Defined.

(** ** Seat order *)

(** X10.  The postflop table lists the occupied seats above the button in
    increasing seat number and then the seats up to and including the button
    in increasing seat number. *)
Theorem postflop_seat_order (players : list Player) (button : Z) :
  button ∈ occupiedSeats players →
  ∃ post,
    createPostflopOrder players button = Ret post ∧
    slot_seat <$> post =
      filter (λ s, (button < s)%Z) (occupiedSeats players)
      ++ filter (λ s, (s ≤ button)%Z) (occupiedSeats players).
Proof.
  intros Hin. destruct (indexOf_elem_of _ _ Hin) as [b Hb].
  destruct (createPostflopOrder_spec players button b Hb)
    as (post & Hpost & Hlen & Hall).
  pose proof (indexOf_Some _ _ _ Hb) as Hocc.
  pose proof (lookup_lt_Some _ _ _ Hocc) as Hlt.
  set (occ := occupiedSeats players) in *. set (N := length occ) in *.
  exists post. split; [done|].
  destruct (sorted_split occ b button) as [Htake Hdrop];
    [apply Sorted_sortedKeys|apply NoDup_sortedKeys|done|].
  rewrite <- Htake, <- Hdrop.
  apply list_eq. intros k. rewrite list_lookup_fmap.
  destruct (decide (k < N)) as [Hk|Hk].
  - rewrite Hall by done.
    destruct (resolvedSlot_is_Some players button b Hb k
                (postflopPosition N k) k) as [slot Hslot].
    rewrite Hslot. simpl.
    apply resolvedSlot_fields in Hslot as (Hseat & _).
    fold occ in Hseat. rewrite <- Hseat. unfold rotatedSeat. fold N.
    destruct (decide (b + k + 1 < N)).
    + rewrite Nat.mod_small by lia.
      rewrite lookup_app_l by (rewrite length_drop; lia).
      rewrite lookup_drop. f_equal. lia.
    + rewrite mod_wrap by lia.
      rewrite lookup_app_r by (rewrite length_drop; lia).
      rewrite length_drop, lookup_take_lt by lia. f_equal. lia.
  - rewrite !lookup_ge_None_2; [done| |lia].
    rewrite length_app, length_drop, length_take. lia.
Qed.

Lemma postflop_seat_order_witness :
  ∃ post,
    createPostflopOrder table4 3 = Ret post ∧
    slot_seat <$> post =
      filter (λ s, (3 < s)%Z) (occupiedSeats table4)
      ++ filter (λ s, (s ≤ 3)%Z) (occupiedSeats table4).
Proof. apply (postflop_seat_order table4 3). by_compute. Defined.

(** ** Degenerate hands *)

Lemma length_assignPositions (seatMap : gmap Z Player) (occ : list Z)
    (btnIndex totalPlayers : nat) :
  length (assignPositions seatMap occ btnIndex totalPlayers) = totalPlayers.
Proof.
  unfold assignPositions. by rewrite foldl_push, length_app, length_fmap, length_seq.
Qed.

Lemma createPreflopOrder_single_seat (players : list Player) (button : Z) :
  length (occupiedSeats players) = 1 →
  button ∈ occupiedSeats players →
  createPreflopOrder players button = Throw TypeError.
Proof.
  intros HN Hin. destruct (indexOf_elem_of _ _ Hin) as [b Hb].
  destruct (pushEntry_resolved players button b Hb [] 0 (λ _, SB) SB)
    as (sb & Hsb & _); [lia|done|].
  unfold createPreflopOrder. fold (occupiedSeats players). rewrite Hb.
  replace (length (occupiedSeats players) - 2) with 0 by lia.
  cbn [seq for_each]. unfold mbind, outcome_bind. rewrite Hsb.
  rewrite (lookup_ge_None_2 _ 1); [done|].
  rewrite length_assignPositions. lia.
Qed.

(** X11.  A hand whose players all sit at one seat, with that seat as the
    button, makes [createPreflopOrder] throw (it reads the second entry of an
    array of one), although [createPostflopOrder] returns a table of one slot
    labelled SB.  [initializeHand] then throws after it has replaced the hand
    number, the button, the registry and the cursors, so the manager keeps
    the order tables of the previous hand. *)
Theorem single_seat_hand (this : Manager) (players : list Player)
    (button : Z) (hand : string) :
  length (occupiedSeats players) = 1 →
  button ∈ occupiedSeats players →
  createPreflopOrder players button = Throw TypeError ∧
  (∃ p, seatHolder players button = Some p ∧
        createPostflopOrder players button =
          Ret [ {| slot_player := name p; slot_seat := button;
                   slot_position := SB; slot_priority := 0 |} ]) ∧
  initializeHand this players button hand =
    Abrupt TypeError
      {| handNumber := Some hand;
         buttonPosition := button;
         absoluteOrder := absoluteOrder this;
         currentStreet := currentStreet this;
         currentActionIndex := zeroIndex;
         playerStatus := registerActive players |}.
Proof.
  intros HN Hin.
  pose proof (createPreflopOrder_single_seat players button HN Hin) as Hpre.
  split_and!; [done| |].
  - destruct (indexOf_elem_of _ _ Hin) as [b Hb].
    pose proof (indexOf_Some _ _ _ Hb) as Hocc.
    assert (b = 0) as -> by (apply lookup_lt_Some in Hocc; lia).
    destruct (createPostflopOrder_spec players button 0 Hb)
      as (post & Hpost & Hlen & Hall).
    rewrite HN in Hlen, Hall.
    destruct (resolvedSlot_is_Some players button 0 Hb 0
                (postflopPosition 1 0) 0) as [slot Hslot].
    pose proof (Hall 0 ltac:(lia)) as H0. rewrite Hslot in H0.
    apply resolvedSlot_fields in Hslot as (Hseat & (p & Hp & Hname) & Hpos & Hprio).
    unfold rotatedSeat in Hseat. rewrite HN in Hseat. simpl in Hseat.
    rewrite Hocc in Hseat. injection Hseat as Hseat.
    exists p. split; [by rewrite Hseat|].
    rewrite Hpost. f_equal.
    destruct post as [|s [|? ?]]; simpl in Hlen; try lia.
    simpl in H0. injection H0 as ->. f_equal.
    destruct slot; simpl in *; by subst.
  - unfold initializeHand. by rewrite Hpre.
Qed.

Lemma single_seat_hand_witness :
  createPreflopOrder [mkPlayer "Ann" 4] 4 = Throw TypeError ∧
  (∃ p, seatHolder [mkPlayer "Ann" 4] 4 = Some p ∧
        createPostflopOrder [mkPlayer "Ann" 4] 4 =
          Ret [ {| slot_player := name p; slot_seat := 4;
                   slot_position := SB; slot_priority := 0 |} ]) ∧
  initializeHand utgFolded [mkPlayer "Ann" 4] 4 "h2" =
    Abrupt TypeError
      {| handNumber := Some "h2";
         buttonPosition := 4;
         absoluteOrder := absoluteOrder utgFolded;
         currentStreet := currentStreet utgFolded;
         currentActionIndex := zeroIndex;
         playerStatus := registerActive [mkPlayer "Ann" 4] |}.
Proof.
  apply (single_seat_hand utgFolded [mkPlayer "Ann" 4] 4 "h2").
  - by vm_compute.
  - by_compute.
Defined.

(** X12.  After [initializeHand] with a button seat that no player occupies,
    every player is registered as active (a player named ['__proto__']
    excepted, for whom the registry gets no entry) but both tables are empty:
    on every street there is no current player, the action order is empty and
    the betting round counts as complete for any [actions]. *)
Theorem unknown_button_hand (this : Manager) (players : list Player)
    (button : Z) (hand : string) :
  button ∉ occupiedSeats players →
  ∃ this',
    initializeHand this players button hand = Normal this' ∧
    handNumber this' = Some hand ∧
    (∀ p, p ∈ players → name p ≠ "__proto__"%string →
          playerStatus this' !! name p = Some active) ∧
    playerStatus this' !! "__proto__"%string = None ∧
    ∀ street,
      getCurrentPlayer this' street = JsNull ∧
      (moveToNextPlayer this' street).2 = JsNull ∧
      getActionOrder this' street = [] ∧
      ∀ actions, isBettingRoundComplete this' street actions = true.
Proof.
  intros Hnot%indexOf_None.
  assert (createPreflopOrder players button = Ret []) as Hpre.
  { unfold createPreflopOrder. fold (occupiedSeats players). by rewrite Hnot. }
  assert (createPostflopOrder players button = Ret []) as Hpost.
  { unfold createPostflopOrder. fold (occupiedSeats players). by rewrite Hnot. }
  eexists. split; [by apply initializeHand_Normal|]. simpl.
  split_and!; [done| | |].
  - intros p Hp Hproto. rewrite registry_lookup, decide_True; [done|].
    split; [by apply list_elem_of_fmap_2|done].
  - apply registerActive_proto.
  - intros street. by destruct street.
Qed.

Lemma unknown_button_hand_witness :
  ∃ this',
    initializeHand newManager table4 2 "h1" = Normal this' ∧
    handNumber this' = Some "h1" ∧
    (∀ p, p ∈ table4 → name p ≠ "__proto__" →
          playerStatus this' !! name p = Some active) ∧
    playerStatus this' !! "__proto__" = None ∧
    ∀ street,
      getCurrentPlayer this' street = JsNull ∧
      (moveToNextPlayer this' street).2 = JsNull ∧
      getActionOrder this' street = [] ∧
      ∀ actions, isBettingRoundComplete this' street actions = true.
Proof.
  apply (unknown_button_hand newManager table4 2 "h1"). by_compute.
Defined.

(** ** The registry after [initializeHand] *)

(** X13.  Whatever the previous hand left behind, and also when
    [initializeHand] throws, the registry afterwards holds exactly the names
    of the players passed other than ['__proto__'], each active, and all four
    cursors are 0; the current street is not touched. *)
Theorem initializeHand_resets_registry (this : Manager) (players : list Player)
    (button : Z) (hand : string) :
  let this' := completionState (initializeHand this players button hand) in
  (∀ n, playerStatus this' !! n =
        if decide (n ∈ name <$> players ∧ n ≠ "__proto__"%string)
        then Some active else None) ∧
  (∀ street, getIndex (currentActionIndex this') street = 0) ∧
  handNumber this' = Some hand ∧
  buttonPosition this' = button ∧
  currentStreet this' = currentStreet this.
Proof.
  intros this'.
  assert (playerStatus this' = registerActive players ∧
          currentActionIndex this' = zeroIndex ∧
          handNumber this' = Some hand ∧
          buttonPosition this' = button ∧
          currentStreet this' = currentStreet this) as (Hreg & Hidx & ? & ? & ?).
  { unfold this', initializeHand.
    destruct (createPreflopOrder players button); [|done].
    by destruct (createPostflopOrder players button). }
  split_and!; [|by intros []; rewrite Hidx|done..].
  intros n. rewrite Hreg. apply registry_lookup.
Qed.

(** ** Hands with distinct seats *)

Lemma seatHolder_unique (players : list Player) (p : Player) :
  NoDup (seat <$> players) → p ∈ players → seatHolder players (seat p) = Some p.
Proof.
  intros Hnd Hp.
  destruct (proj2 (seatHolder_is_Some players (seat p))) as [q Hq];
    [by exists p|].
  rewrite Hq. f_equal.
  apply seatHolder_Some in Hq as [Hq Hseat].
  apply list_elem_of_lookup in Hp as [i Hi].
  apply list_elem_of_lookup in Hq as [j Hj].
  rewrite NoDup_alt in Hnd.
  assert (j = i) as -> by
    (apply (Hnd j i (seat p)); rewrite list_lookup_fmap;
       [by rewrite Hj, <- Hseat|by rewrite Hi]).
  congruence.
Qed.

Lemma buildSeatMap_Permutation (players players' : list Player) :
  NoDup (seat <$> players) → players ≡ₚ players' →
  buildSeatMap players = buildSeatMap players'.
Proof.
  intros Hnd Hperm.
  assert (NoDup (seat <$> players')) as Hnd' by by rewrite <- Hperm.
  apply map_eq. intros s. rewrite !buildSeatMap_lookup.
  destruct (seatHolder players s) as [p|] eqn:E.
  - apply seatHolder_Some in E as [Hp <-]. symmetry.
    apply seatHolder_unique; [done|]. by rewrite <- Hperm.
  - destruct (seatHolder players' s) as [q|] eqn:E'; [|done].
    apply seatHolder_Some in E' as [Hq Hs].
    assert (is_Some (seatHolder players s)) as [? ?]; [|congruence].
    apply seatHolder_is_Some. exists q. by rewrite Hperm.
Qed.

Lemma registerActive_Permutation (players players' : list Player) :
  players ≡ₚ players' → registerActive players = registerActive players'.
Proof.
  intros Hperm. apply map_eq. intros n. rewrite !registry_lookup.
  destruct (decide (n ∈ name <$> players ∧ n ≠ "__proto__"%string)) as [Hn|Hn].
  - rewrite decide_True; [done|]. by rewrite <- Hperm.
  - rewrite decide_False; [done|]. by rewrite <- Hperm.
Qed.

(** X14.  When no two players share a seat, the order in which the players
    are listed does not matter: a permuted list gives the same tables and
    the same result of [initializeHand]. *)
Theorem listing_order_irrelevant (this : Manager) (players players' : list Player)
    (button : Z) (hand : string) :
  NoDup (seat <$> players) →
  players ≡ₚ players' →
  createPreflopOrder players button = createPreflopOrder players' button ∧
  createPostflopOrder players button = createPostflopOrder players' button ∧
  initializeHand this players button hand =
    initializeHand this players' button hand.
Proof.
  intros Hnd Hperm.
  pose proof (buildSeatMap_Permutation players players' Hnd Hperm) as Hmap.
  assert (createPreflopOrder players button = createPreflopOrder players' button)
    as Hpre by (unfold createPreflopOrder; by rewrite Hmap).
  assert (createPostflopOrder players button = createPostflopOrder players' button)
    as Hpost by (unfold createPostflopOrder; by rewrite Hmap).
  split_and!; [done..|].
  unfold initializeHand.
  by rewrite Hpre, Hpost, (registerActive_Permutation players players').
Qed.

Lemma listing_order_irrelevant_witness :
  createPreflopOrder table4 7 = createPreflopOrder (reverse table4) 7 ∧
  createPostflopOrder table4 7 = createPostflopOrder (reverse table4) 7 ∧
  initializeHand newManager table4 7 "h1" =
    initializeHand newManager (reverse table4) 7 "h1".
Proof.
  apply (listing_order_irrelevant newManager table4 (reverse table4) 7 "h1").
  - by_compute.
  - by_compute.
Defined.

(** With a shared seat the listing order does matter: the player listed
    last gets the seat. *)
Example shared_seat_order_matters :
  createPostflopOrder [mkPlayer "Ann" 1; mkPlayer "Bob" 1; mkPlayer "Cyd" 2] 2 ≠
  createPostflopOrder [mkPlayer "Bob" 1; mkPlayer "Ann" 1; mkPlayer "Cyd" 2] 2.
Proof. by vm_compute. Qed.

Lemma registryNames_registerActive (this : Manager) (players : list Player) :
  playerStatus this = registerActive players →
  NoDup (name <$> players) →
  registryNames this ≡ₚ
    filter (λ n, n ≠ "__proto__"%string) (name <$> players).
Proof.
  intros Hreg Hnd. unfold registryNames. rewrite Hreg.
  apply NoDup_Permutation;
    [apply NoDup_fst_map_to_list|by apply NoDup_filter|].
  intros n. rewrite list_elem_of_fmap, list_elem_of_filter. split.
  - intros ([k v] & -> & Hkv). apply elem_of_map_to_list in Hkv.
    rewrite registry_lookup in Hkv. simpl.
    case_decide as Hk; [|done]. by destruct Hk.
  - intros [Hproto Hn]. exists (n, active). split; [done|].
    apply elem_of_map_to_list. by rewrite registry_lookup, decide_True.
Qed.

Lemma table_names (players : list Player) (button : Z) (b c : nat)
    (table : list ActionSlot) :
  NoDup (seat <$> players) →
  indexOf (occupiedSeats players) button = Some b →
  length table = length (occupiedSeats players) →
  (∀ k, k < length (occupiedSeats players) → ∃ position priority,
     table !! k =
       resolvedSlot players b ((k + c) `mod` length (occupiedSeats players))
         position priority) →
  slot_player <$> table ≡ₚ name <$> players.
Proof.
  intros Hnd Hb Hlen Htable.
  destruct (table_one_slot_per_seat players button b c table Hb Hlen Htable)
    as [Hperm Hholder].
  set (g := λ s, from_option name EmptyString (seatHolder players s)).
  assert (slot_player <$> table = g <$> (slot_seat <$> table)) as ->.
  { rewrite <- list_fmap_compose. apply list_fmap_ext. intros i slot Hi.
    destruct (Hholder slot) as (p & Hp & ->); [apply list_elem_of_lookup; eauto|].
    simpl. unfold g. by rewrite Hp. }
  rewrite Hperm.
  assert (occupiedSeats players ≡ₚ seat <$> players) as ->.
  { apply NoDup_Permutation; [apply NoDup_sortedKeys|done|].
    intros s. rewrite elem_of_occupiedSeats, list_elem_of_fmap. naive_solver. }
  rewrite <- list_fmap_compose.
  assert (g ∘ seat <$> players = name <$> players) as ->; [|done].
  apply list_fmap_ext. intros i p Hi. simpl. unfold g.
  rewrite seatHolder_unique; [done..|]. apply list_elem_of_lookup; eauto.
Qed.

(** X15.  A hand of at least two players with distinct names and distinct
    seats and the button at one of the seats: [initializeHand] returns; on
    every street the table has one slot per player, carrying exactly the
    players' names; the registry holds exactly the players' names other than
    ['__proto__'], and the slots that can act are exactly those whose name is
    not ['__proto__'].  So when no player is named ['__proto__'] the names of
    the table are exactly the names of the registry and every slot can
    act. *)
Theorem distinct_hand (this : Manager) (players : list Player)
    (button : Z) (hand : string) :
  NoDup (name <$> players) →
  NoDup (seat <$> players) →
  2 ≤ length players →
  button ∈ seat <$> players →
  ∃ this',
    initializeHand this players button hand = Normal this' ∧
    ∀ street,
      length (orderTable this' street) = length players ∧
      tableNames this' street ≡ₚ name <$> players ∧
      registryNames this' ≡ₚ
        filter (λ n, n ≠ "__proto__"%string) (name <$> players) ∧
      activeSlots this' street =
        filter (λ p, slot_player p ≠ "__proto__"%string)
          (orderTable this' street) ∧
      ("__proto__"%string ∉ name <$> players →
       registryMatchesTable this' street ∧
       activeSlots this' street = orderTable this' street).
Proof.
  intros Hnames Hseats Hlen Hbtn.
  assert (occupiedSeats players ≡ₚ seat <$> players) as Hocc.
  { apply NoDup_Permutation; [apply NoDup_sortedKeys|done|].
    intros s. rewrite elem_of_occupiedSeats, list_elem_of_fmap. naive_solver. }
  assert (length (occupiedSeats players) = length players) as HN
    by by rewrite Hocc, length_fmap.
  destruct (built_tables players button)
    as (b & pre & post & Hb & Hpre & Hpost & Hlen1 & Hlen2 & Hk1 & Hk2);
    [lia|by rewrite Hocc|].
  eexists. split; [by apply initializeHand_Normal|].
  set (this' := {| handNumber := Some hand |}).
  assert (slot_player <$> pre ≡ₚ name <$> players) as Hpre_names.
  { apply (table_names players button b 2); [done..|]. intros k Hk. eauto. }
  assert (slot_player <$> post ≡ₚ name <$> players) as Hpost_names.
  { apply (table_names players button b 0); [done..|]. intros k Hk.
    rewrite Nat.add_0_r, Nat.mod_small by done. eauto. }
  assert (∀ street, tableNames this' street ≡ₚ name <$> players) as Htn
    by (by intros []).
  assert (∀ street,
            activeSlots this' street =
              filter (λ p, slot_player p ≠ "__proto__"%string)
                (orderTable this' street)) as Hact.
  { intros street. unfold activeSlots. apply filter_ext_elem. intros p Hp.
    unfold isActive. simpl. rewrite registry_lookup.
    assert (slot_player p ∈ name <$> players) as Hin
      by (rewrite <- (Htn street); by apply list_elem_of_fmap_2).
    case_decide; naive_solver. }
  intros street. split_and!.
  - destruct street; simpl; lia.
  - done.
  - by apply (registryNames_registerActive this' players).
  - apply Hact.
  - intros Hproto. split.
    + unfold registryMatchesTable.
      rewrite Htn, (registryNames_registerActive this' players) by done.
      rewrite filter_all; [done|]. apply Forall_forall. by intros n Hn ->.
    + rewrite Hact. apply filter_all, Forall_forall. intros p Hp Heq.
      apply Hproto. rewrite <- (Htn street), <- Heq.
      by apply list_elem_of_fmap_2.
Qed.

Lemma distinct_hand_witness :
  ∃ this',
    initializeHand newManager table4 7 "h1" = Normal this' ∧
    ∀ street,
      length (orderTable this' street) = length table4 ∧
      tableNames this' street ≡ₚ name <$> table4 ∧
      registryNames this' ≡ₚ
        filter (λ n, n ≠ "__proto__"%string) (name <$> table4) ∧
      activeSlots this' street =
        filter (λ p, slot_player p ≠ "__proto__"%string)
          (orderTable this' street) ∧
      ("__proto__"%string ∉ name <$> table4 →
       registryMatchesTable this' street ∧
       activeSlots this' street = orderTable this' street).
Proof.
  apply (distinct_hand newManager table4 7 "h1").
  - by_compute.
  - by_compute.
  - vm_compute. lia.
  - by_compute.
Defined.

(** A player named ['__proto__'] has a slot in both tables but no entry in
    the registry, and cannot act. *)
Example proto_player_has_slot_only :
  let this := started tableUnderscore 2 in
  tableNames this preflop = ["__proto__"; "Bob"] ∧
  registryNames this = ["Bob"] ∧
  slot_player <$> activeSlots this preflop = ["Bob"] ∧
  ¬ registryMatchesTable this preflop.
Proof.
  split_and!; [by vm_compute..|].
  unfold registryMatchesTable. intros Hperm%Permutation_length.
  vm_compute in Hperm. lia.
Qed.

(** ** Folding out of turn order *)

Lemma getCurrentPlayer_at (this : Manager) (street : Street)
    (l : list ActionSlot) (p : ActionSlot) :
  activeSlots this street = l →
  l !! (getIndex (currentActionIndex this) street `mod` length l) = Some p →
  getCurrentPlayer this street = JsObj p.
Proof.
  intros Hl Hp. rewrite getCurrentPlayer_eq, Hl, Hp.
  destruct l; [|done]. by rewrite lookup_nil in Hp.
Qed.

Lemma lookup_app_cyclic {A : Type} (l1 l2 : list A) (i : nat) :
  (l1 ++ l2) !! ((length l1 + i) `mod` length (l1 ++ l2)) =
  (l2 ++ l1) !! (i `mod` length (l2 ++ l1)).
Proof.
  rewrite !length_app.
  destruct (decide (length l1 + length l2 = 0)) as [Hz|Hz].
  { destruct l1, l2; simpl in Hz; try lia. done. }
  rewrite <- Nat.Div0.add_mod_idemp_r.
  replace (length l2 + length l1) with (length l1 + length l2) by lia.
  pose proof (Nat.mod_upper_bound i (length l1 + length l2) Hz) as Hj.
  set (j := i `mod` (length l1 + length l2)) in *.
  destruct (decide (j < length l2)) as [Hlt|Hge].
  - rewrite Nat.mod_small by lia.
    rewrite lookup_app_r, (lookup_app_l l2) by lia. f_equal. lia.
  - rewrite mod_wrap by lia.
    rewrite lookup_app_l, (lookup_app_r l2) by lia. f_equal. lia.
Qed.

(** The current player when the players who can act are [l1 ++ l2] and the
    cursor is [length l1 + i]. *)
Lemma getCurrentPlayer_cyclic (this : Manager) (street : Street)
    (l1 l2 : list ActionSlot) (i : nat) :
  activeSlots this street = l1 ++ l2 →
  getIndex (currentActionIndex this) street = length l1 + i →
  getCurrentPlayer this street =
    match (l2 ++ l1) !! (i `mod` length (l2 ++ l1)) with
    | Some p => JsObj p
    | None => JsNull
    end.
Proof.
  intros Hact Hidx. rewrite getCurrentPlayer_eq, Hact, Hidx, lookup_app_cyclic.
  destruct (l1 ++ l2) as [|a l] eqn:E.
  - apply app_eq_nil in E as [-> ->]. done.
  - destruct (lookup_lt_is_Some_2 (l2 ++ l1) (i `mod` length (l2 ++ l1)))
      as [p ->]; [|done].
    apply Nat.mod_upper_bound. apply (f_equal length) in E.
    rewrite length_app in *. simpl in E. lia.
Qed.

(** X16.  Let the cursor of the street stand at the position of the current
    player among the players who can act (it has not yet passed the end of
    that sequence), and let no other slot carry that player's name.  When
    the player is marked folded or all-in, the player who followed them
    becomes current without any cursor move: the next one in the sequence,
    the first one when the player was the last, nobody when the player was
    the only one.  A call of [moveToNextPlayer] after such a status change
    therefore passes over that follower and returns the one after, counted
    cyclically among the remaining players: the follower again when only one
    player remains. *)
Theorem fold_then_move_skips (this : Manager) (street : Street)
    (l1 l2 : list ActionSlot) (p : ActionSlot) (status : Status) :
  activeSlots this street = l1 ++ p :: l2 →
  getIndex (currentActionIndex this) street = length l1 →
  slot_player p ∉ slot_player <$> (l1 ++ l2) →
  status ≠ active →
  let this' := (updatePlayerStatus this (slot_player p) status).1 in
  getCurrentPlayer this street = JsObj p ∧
  activeSlots this' street = l1 ++ l2 ∧
  getCurrentPlayer this' street =
    match l2 ++ l1 with
    | [] => JsNull
    | q :: _ => JsObj q
    end ∧
  (moveToNextPlayer this' street).2 =
    match l2 ++ l1 with
    | [] => JsNull
    | [q] => JsObj q
    | _ :: r :: _ => JsObj r
    end.
Proof.
  intros Hact Hidx Hname Hs this'.
  assert (activeSlots this' street = l1 ++ l2) as Hact'.
  { unfold this'. rewrite activeSlots_update_inactive, Hact by done.
    rewrite filter_app, filter_cons_False by (by intros []).
    rewrite <- filter_app. apply filter_all, Forall_forall.
    intros s Hin Heq. apply Hname. rewrite <- Heq. by apply list_elem_of_fmap_2. }
  split_and!; [|done| |].
  - apply (getCurrentPlayer_at _ _ _ _ Hact). rewrite Hidx.
    rewrite Nat.mod_small by (rewrite length_app; simpl; lia).
    by rewrite lookup_app_r, Nat.sub_diag by lia.
  - rewrite (getCurrentPlayer_cyclic this' street l1 l2 0);
      [|done|simpl; lia].
    destruct (l2 ++ l1) as [|q rest]; [done|].
    by rewrite Nat.Div0.mod_0_l.
  - unfold moveToNextPlayer. cbv zeta. cbn [snd].
    rewrite (getCurrentPlayer_cyclic _ street l1 l2 1).
    + destruct (l2 ++ l1) as [|q [|r rest]]; [done..|].
      rewrite Nat.mod_small by (simpl; lia). done.
    + by rewrite activeSlots_withIndex.
    + simpl. by rewrite getIndex_setIndex, decide_True, Hidx.
Qed.

Lemma fold_then_move_skips_witness :
  let this := moves 3 (started table4 7) preflop in
  let this' := (updatePlayerStatus this "Bob" folded).1 in
  getCurrentPlayer this preflop =
    JsObj {| slot_player := "Bob"; slot_seat := 3;
             slot_position := BB; slot_priority := 3 |} ∧
  activeSlots this' preflop =
    [ {| slot_player := "Cyd"; slot_seat := 5;
         slot_position := UTG; slot_priority := 0 |};
      {| slot_player := "Dee"; slot_seat := 7;
         slot_position := BTN; slot_priority := 1 |};
      {| slot_player := "Ann"; slot_seat := 1;
         slot_position := SB; slot_priority := 2 |} ] ∧
  getCurrentPlayer this' preflop =
    JsObj {| slot_player := "Cyd"; slot_seat := 5;
             slot_position := UTG; slot_priority := 0 |} ∧
  (moveToNextPlayer this' preflop).2 =
    JsObj {| slot_player := "Dee"; slot_seat := 7;
             slot_position := BTN; slot_priority := 1 |}.
Proof.
  apply (fold_then_move_skips (moves 3 (started table4 7) preflop) preflop
           [ {| slot_player := "Cyd"; slot_seat := 5;
                slot_position := UTG; slot_priority := 0 |};
             {| slot_player := "Dee"; slot_seat := 7;
                slot_position := BTN; slot_priority := 1 |};
             {| slot_player := "Ann"; slot_seat := 1;
                slot_position := SB; slot_priority := 2 |} ]
           []
           {| slot_player := "Bob"; slot_seat := 3;
              slot_position := BB; slot_priority := 3 |} folded).
  - by vm_compute.
  - by vm_compute.
  - by_compute.
  - done.
Defined.

(** The same on a heads-up table: after the fold of the player to act the
    other one is current, and stays so after [moveToNextPlayer]. *)
Example fold_heads_up :
  let this := started table2 2 in
  let this' := (updatePlayerStatus this "Ann" folded).1 in
  slot_player <$> activeSlots this preflop = ["Ann"; "Bob"] ∧
  (∃ p, getCurrentPlayer this preflop = JsObj p ∧ slot_player p = "Ann") ∧
  (∃ q, getCurrentPlayer this' preflop = JsObj q ∧ slot_player q = "Bob") ∧
  (∃ q, (moveToNextPlayer this' preflop).2 = JsObj q ∧ slot_player q = "Bob").
Proof. split_and!; [by vm_compute|eexists; split; by vm_compute..]. Qed.

(** Once the cursor has passed the end of the sequence the follower need
    not become current: with the cursor at 5 on the four-handed table Dee is
    to act, and after Dee's fold it is Bob, not Ann. *)
Example fold_after_wrap_around :
  let this := moves 5 (started table4 7) preflop in
  let this' := (updatePlayerStatus this "Dee" folded).1 in
  getIndex (currentActionIndex this) preflop = 5 ∧
  slot_player <$> activeSlots this preflop = ["Cyd"; "Dee"; "Ann"; "Bob"] ∧
  (∃ p, getCurrentPlayer this preflop = JsObj p ∧ slot_player p = "Dee") ∧
  (∃ q, getCurrentPlayer this' preflop = JsObj q ∧ slot_player q = "Bob").
Proof. split_and!; [by vm_compute..|eexists; split; by vm_compute|eexists; split; by vm_compute]. Qed.

(** ** The compatibility layer *)

Lemma pageOk_load : pageOk loadPage.
Proof. by split_and!; [|simpl; lia..]. Qed.

Lemma call_ok (pg : Page) (c : Call) : pageOk pg → pageOk (call pg c).
Proof.
  intros (Hstore & Hm & Hl).
  destruct c; unfold pageOk; simpl;
    rewrite ?lookup_insert_eq; split_and!; done || lia.
Qed.

Lemma calls_ok (pg : Page) (cs : list Call) : pageOk pg → pageOk (calls pg cs).
Proof.
  revert pg. induction cs as [|c cs IH]; intros pg Hok; [done|].
  apply IH. by apply call_ok.
Qed.

(** Once the manager has a registry object of its own, no call changes the
    object the layer refers to. *)
Lemma call_layer_frame (pg : Page) (c : Call) :
  pageOk pg →
  managerRegistry pg ≠ layerRegistry pg ∨ replacesRegistry c = true ∨
    isUpdate c = false →
  (∀ n, layerStatus (call pg c) n = layerStatus pg n) ∧
  (managerRegistry pg ≠ layerRegistry pg ∨ replacesRegistry c = true →
   managerRegistry (call pg c) ≠ layerRegistry (call pg c)).
Proof.
  intros (Hstore & Hm & Hl) Hcase. unfold layerStatus.
  destruct c; simpl in *.
  - split; [|lia]. intros n. by rewrite lookup_insert_ne by lia.
  - split; [|lia]. intros n. by rewrite lookup_insert_ne by lia.
  - destruct Hcase as [Hne|[?|?]]; [|done..].
    split; [|done]. intros n. by rewrite lookup_insert_ne.
  - split; [done|]. by intros [?|?].
  - split; [done|]. by intros [?|?].
Qed.

Lemma calls_layer_frame (pg : Page) (cs : list Call) :
  pageOk pg →
  managerRegistry pg ≠ layerRegistry pg →
  ∀ n, layerStatus (calls pg cs) n = layerStatus pg n.
Proof.
  revert pg. induction cs as [|c cs IH]; intros pg Hok Hne n; [done|].
  destruct (call_layer_frame pg c Hok) as [Hsame Hne']; [by left|].
  simpl. rewrite IH; [done|by apply call_ok|]. apply Hne'. by left.
Qed.

Lemma calls_app (pg : Page) (cs1 cs2 : list Call) :
  calls pg (cs1 ++ cs2) = calls (calls pg cs1) cs2.
Proof. apply foldl_app. Qed.

Lemma calls_without_update (pg : Page) (cs : list Call) :
  pageOk pg →
  Forall (λ c, isUpdate c = false) cs →
  ∀ n, layerStatus (calls pg cs) n = layerStatus pg n.
Proof.
  revert pg. induction cs as [|c cs IH]; intros pg Hok Hcs n; [done|].
  apply Forall_cons in Hcs as [Hc Hcs].
  destruct (call_layer_frame pg c Hok) as [Hsame _]; [by right; right|].
  simpl. rewrite IH; [done|by apply call_ok|done].
Qed.

(** X17.  The compatibility layer [window.actionManager] keeps the registry
    object of load time.  From the first [initializeHand] or [endHand] on,
    nothing the manager does changes what [getActivePlayers] of the layer
    returns; if no status was updated before that call, it returns the empty
    list for every argument. *)
Theorem layer_registry_is_stale (cs1 cs2 : list Call) (c : Call)
    (players : list Player) :
  replacesRegistry c = true →
  getActivePlayers (calls loadPage (cs1 ++ c :: cs2)) players =
    getActivePlayers (calls loadPage cs1) players ∧
  (Forall (λ c', isUpdate c' = false) cs1 →
   getActivePlayers (calls loadPage (cs1 ++ c :: cs2)) players = []).
Proof.
  intros Hc.
  pose proof (calls_ok loadPage cs1 pageOk_load) as Hok1.
  destruct (call_layer_frame (calls loadPage cs1) c Hok1) as [Hsame Hne];
    [by right; left|].
  assert (∀ n, layerStatus (calls loadPage (cs1 ++ c :: cs2)) n =
               layerStatus (calls loadPage cs1) n) as Hstale.
  { intros n. rewrite calls_app. simpl.
    rewrite calls_layer_frame; [done|by apply call_ok|]. apply Hne. by right. }
  assert (getActivePlayers (calls loadPage (cs1 ++ c :: cs2)) players =
          getActivePlayers (calls loadPage cs1) players) as Heq.
  { unfold getActivePlayers. apply filter_ext_elem. intros p _.
    by rewrite Hstale. }
  split; [done|]. intros Hcs1. rewrite Heq. unfold getActivePlayers.
  apply filter_none, Forall_forall. intros p _.
  by rewrite (calls_without_update loadPage cs1 pageOk_load Hcs1).
Qed.

Lemma layer_registry_is_stale_witness :
  getActivePlayers
    (calls loadPage
       ([] ++ CallInitializeHand table4 7 "h1"
           :: [CallUpdatePlayerStatus "Cyd" folded])) table4 =
    getActivePlayers (calls loadPage []) table4 ∧
  (Forall (λ c', isUpdate c' = false) [] →
   getActivePlayers
     (calls loadPage
        ([] ++ CallInitializeHand table4 7 "h1"
            :: [CallUpdatePlayerStatus "Cyd" folded])) table4 = []).
Proof.
  by apply (layer_registry_is_stale [] [CallUpdatePlayerStatus "Cyd" folded]
              (CallInitializeHand table4 7 "h1") table4).
Defined.

(** Before the first hand the layer and the manager share the registry
    object, so an update is visible through the layer; during a hand the
    manager has every player active and the layer has nobody. *)
Example layer_before_and_during_a_hand :
  getActivePlayers (calls loadPage [CallUpdatePlayerStatus "Ann" active]) table4
    = [mkPlayer "Ann" 1] ∧
  getActivePlayers (calls loadPage [CallInitializeHand table4 7 "h1"]) table4
    = [] ∧
  activeSlots (manager (calls loadPage [CallInitializeHand table4 7 "h1"])) flop
    = orderTable (manager (calls loadPage [CallInitializeHand table4 7 "h1"])) flop.
Proof. by vm_compute. Qed.

(** ** The display projection *)

(** X18.  [getActionOrder] lists the slots of the street's table in table
    order, each with the registry's status for its player; an entry can act
    exactly when that status is active (a player without registry entry
    cannot), and the player [getCurrentPlayer] returns is always one of the
    entries that can act. *)
Theorem getActionOrder_projection (this : Manager) (street : Street) :
  oe_slot <$> getActionOrder this street = orderTable this street ∧
  (∀ e, e ∈ getActionOrder this street →
     oe_status e = playerStatus this !! slot_player (oe_slot e) ∧
     (oe_canAct e = true ↔ oe_status e = Some active)) ∧
  oe_slot <$> filter (λ e, oe_canAct e = true) (getActionOrder this street) =
    activeSlots this street ∧
  (∀ p, getCurrentPlayer this street = JsObj p →
     ∃ e, e ∈ getActionOrder this street ∧ oe_slot e = p ∧ oe_canAct e = true).
Proof.
  split_and!.
  - unfold getActionOrder. rewrite <- list_fmap_compose.
    rewrite <- (list_fmap_id (orderTable this street)) at 2.
    by apply list_fmap_ext.
  - intros e (p & -> & _)%list_elem_of_fmap. simpl. split; [done|].
    apply bool_decide_eq_true.
  - rewrite getActionOrder_canAct, <- list_fmap_compose.
    rewrite <- (list_fmap_id (activeSlots this street)) at 2.
    by apply list_fmap_ext.
  - intros p Hp. rewrite getCurrentPlayer_eq in Hp.
    destruct (activeSlots this street) as [|a l] eqn:E; [done|].
    destruct (_ !! _) as [q|] eqn:Hq; [|done]. injection Hp as ->.
    assert (p ∈ activeSlots this street) as [Hact Hin]%list_elem_of_filter
      by (rewrite E; apply list_elem_of_lookup; eauto).
    eexists. split; [unfold getActionOrder; by apply list_elem_of_fmap_2|].
    split; [done|]. simpl. by apply bool_decide_eq_true.
Qed.

Lemma getActionOrder_projection_witness :
  ∃ e, e ∈ getActionOrder utgFolded preflop ∧
       oe_slot e = {| slot_player := "Dee"; slot_seat := 7;
                      slot_position := BTN; slot_priority := 1 |} ∧
       oe_canAct e = true.
Proof.
  by apply (getActionOrder_projection utgFolded preflop).
Defined.

(** ** Labels within a table *)

Lemma specPosition_inj (N i j : nat) :
  i < N → j < N → specPosition N i = specPosition N j → i = j.
Proof.
  unfold specPosition, precedence, firstMatch, MP1, MP2. intros Hi Hj.
  repeat case_bool_decide; intros Heq; try discriminate Heq; try lia;
    injection Heq; lia.
Qed.

Lemma specPosition_CO (N i : nat) :
  i < N → specPosition N i = CO ↔ 8 ≤ N ∧ i + 2 = N.
Proof.
  unfold specPosition, precedence, firstMatch, MP1, MP2. intros Hi.
  repeat case_bool_decide; split; try done; try lia; intros [? ?]; lia.
Qed.

(** X19.  In a table built for [N >= 2] seats no two slots carry the same
    position label, and the label CO is given (to the seat before the button)
    exactly when the table has 8 or more seats: at smaller tables the rules
    for UTG, UTG+1, MP1 and MP2 come first. *)
Theorem labels_distinct (players : list Player) (button : Z) :
  2 ≤ length (occupiedSeats players) →
  button ∈ occupiedSeats players →
  ∃ pre post,
    createPreflopOrder players button = Ret pre ∧
    createPostflopOrder players button = Ret post ∧
    NoDup (slot_position <$> pre) ∧
    NoDup (slot_position <$> post) ∧
    (CO ∈ slot_position <$> post ↔ 8 ≤ length (occupiedSeats players)) ∧
    (CO ∈ slot_position <$> pre ↔ 8 ≤ length (occupiedSeats players)).
Proof.
  intros HN Hin.
  destruct (built_tables players button HN Hin)
    as (b & pre & post & Hb & Hpre & Hpost & Hlen1 & Hlen2 & Hk1 & Hk2).
  set (N := length (occupiedSeats players)) in *.
  assert (∀ k slot, post !! k = Some slot →
            k < N ∧ slot_position slot = specPosition N k) as Hpost_pos.
  { intros k slot Hk. pose proof (lookup_lt_Some _ _ _ Hk) as Hlt.
    split; [lia|]. rewrite Hk2 in Hk by lia.
    by apply resolvedSlot_fields in Hk as (_ & _ & ? & _). }
  assert (∀ k slot, pre !! k = Some slot →
            k < N ∧ slot_position slot = specPosition N ((k + 2) `mod` N))
    as Hpre_pos.
  { intros k slot Hk. pose proof (lookup_lt_Some _ _ _ Hk) as Hlt.
    split; [lia|]. rewrite Hk1 in Hk by lia.
    by apply resolvedSlot_fields in Hk as (_ & _ & ? & _). }
  exists pre, post. split_and!; [done..| | | |].
  - apply NoDup_alt. intros i j pos Hi Hj.
    apply list_lookup_fmap_Some in Hi as (si & -> & Hi).
    apply list_lookup_fmap_Some in Hj as (sj & Heq & Hj).
    apply Hpre_pos in Hi as [Hi Hpi]. apply Hpre_pos in Hj as [Hj Hpj].
    rewrite Hpi, Hpj in Heq. apply specPosition_inj in Heq;
      [|apply Nat.mod_upper_bound; lia..].
    by apply mod_shift_inj in Heq.
  - apply NoDup_alt. intros i j pos Hi Hj.
    apply list_lookup_fmap_Some in Hi as (si & -> & Hi).
    apply list_lookup_fmap_Some in Hj as (sj & Heq & Hj).
    apply Hpost_pos in Hi as [Hi Hpi]. apply Hpost_pos in Hj as [Hj Hpj].
    rewrite Hpi, Hpj in Heq. by apply specPosition_inj in Heq.
  - split.
    + intros (slot & Hco & [k Hk]%list_elem_of_lookup)%list_elem_of_fmap.
      apply Hpost_pos in Hk as [Hk Hpos]. rewrite Hpos in Hco.
      symmetry in Hco. apply specPosition_CO in Hco; [lia|done].
    + intros H8. destruct (lookup_lt_is_Some_2 post (N - 2)) as [slot Hslot];
        [lia|].
      apply list_elem_of_fmap. exists slot. split;
        [|apply list_elem_of_lookup; eauto].
      apply Hpost_pos in Hslot as [_ ->]. symmetry.
      apply specPosition_CO; lia.
  - split.
    + intros (slot & Hco & [k Hk]%list_elem_of_lookup)%list_elem_of_fmap.
      apply Hpre_pos in Hk as [Hk Hpos]. rewrite Hpos in Hco.
      symmetry in Hco. apply specPosition_CO in Hco;
        [lia|apply Nat.mod_upper_bound; lia].
    + intros H8. destruct (lookup_lt_is_Some_2 pre (N - 4)) as [slot Hslot];
        [lia|].
      apply list_elem_of_fmap. exists slot. split;
        [|apply list_elem_of_lookup; eauto].
      apply Hpre_pos in Hslot as [_ ->]. symmetry.
      rewrite Nat.mod_small by lia. apply specPosition_CO; lia.
Qed.

Lemma labels_distinct_witness :
  ∃ pre post,
    createPreflopOrder table4 7 = Ret pre ∧
    createPostflopOrder table4 7 = Ret post ∧
    NoDup (slot_position <$> pre) ∧
    NoDup (slot_position <$> post) ∧
    (CO ∈ slot_position <$> post ↔ 8 ≤ length (occupiedSeats table4)) ∧
    (CO ∈ slot_position <$> pre ↔ 8 ≤ length (occupiedSeats table4)).
Proof.
  apply (labels_distinct table4 7).
  - vm_compute. lia.
  - by_compute.
Defined.
